(** * The persisted todo list of [src/src/App.tsx]

    A shallow embedding of the list-management core of the [App]
    component: the [Todo] record, the three state transitions performed by
    the click and change handlers, the [localStorage] slot the list is
    mirrored to, and the [useState] initialiser that seeds the list from
    that slot.

    Conventions.
    - A TypeScript [number] that holds an identifier is an integer, [Z].
      [todos.length + 1] is then [Z.of_nat (length todos) + 1].  The
      integers a JavaScript number represents exactly are those up to
      2^53 in magnitude; no identifier the handlers create comes near.
    - A JavaScript string is a [string]; its bytes are read as the UTF-8
      encoding of the text, so every text without an unpaired surrogate has
      its string.
    - A [Todo[]] is a [list Todo]; the handlers build new arrays and never
      update one in place, so no aliasing has to be tracked. *)

From Stdlib Require Import ZArith List Bool Ascii String Lia.
From Stdlib Require Import Decimal DecimalString DecimalPos DecimalZ.
From stdpp Require Import gmap strings.
Import ListNotations.

Local Open Scope string_scope.
Local Open Scope list_scope.
Local Open Scope Z_scope.

(** ** The data model (App.tsx, lines 17-21) *)

Record Todo : Type := mkTodo {
  id : Z;          (* unique identifier *)
  text : string;   (* task text *)
  done : bool      (* completion flag *)
}.

(** ** The three transitions of the list *)

Module ListStore.

(** The add button (lines 99-105):
    [[...todos, { id: todos.length + 1, text: inputValue, done: false }]]. *)
Definition add (todos : list Todo) (inputValue : string) : list Todo :=
  todos ++ [ {| id := Z.of_nat (length todos) + 1;
                text := inputValue;
                done := false |} ].

(** The object built by [{ ...todo, done: !todo.done }] (line 138). *)
Definition negate_done (todo : Todo) : Todo :=
  {| id := id todo; text := text todo; done := negb (done todo) |}.

(** The checkbox (lines 135-141):
    [todos.map(todo => todo.id === item.id ? {...todo, done: !todo.done} : todo)]. *)
Definition toggle (todos : list Todo) (item_id : Z) : list Todo :=
  map (fun todo => if id todo =? item_id then negate_done todo else todo) todos.

(** The delete button (lines 172-174):
    [todos.filter(todo => todo.id !== item.id)]. *)
Definition remove (todos : list Todo) (item_id : Z) : list Todo :=
  List.filter (fun todo => negb (id todo =? item_id)) todos.

End ListStore.

(** ** Completions

    A JavaScript computation either returns a value or throws.  [Unmodelled]
    marks the inputs on which this development makes no statement (JSON
    numbers with a fraction or an exponent, escapes of characters beyond
    ASCII, property names that are array indices): nothing is proved about
    them, and nothing below relies on them. *)

Inductive exn : Type := SyntaxError | TypeError.

Inductive result (A : Type) : Type :=
| Ok (a : A)
| Throw (e : exn)
| Unmodelled.

Arguments Ok {A} a.
Arguments Throw {A} e.
Arguments Unmodelled {A}.

Definition bind {A B : Type} (r : result A) (k : A -> result B) : result B :=
  match r with
  | Ok a => k a
  | Throw e => Throw e
  | Unmodelled => Unmodelled
  end.

Notation "'let!' x ':=' r 'in' k" := (bind r (fun x => k))
  (at level 10, x pattern, r at level 100, k at level 200).

(** ** JavaScript values that JSON can denote *)

#[warnings="-register-all"]
Inductive value : Type :=
| VNull
| VBool (b : bool)
| VNum (n : Z)
| VStr (s : string)
| VArr (elems : list value)
| VObj (props : list (string * value)).

(** Own properties of an object, in enumeration order. *)
Fixpoint lookup_prop (k : string) (props : list (string * value)) : option value :=
  match props with
  | [] => None
  | (k', v) :: rest => if String.eqb k' k then Some v else lookup_prop k rest
  end.

(** Defining property [k]: an existing property keeps its place and takes
    the new value, a new one goes last. *)
Fixpoint set_prop (k : string) (v : value) (props : list (string * value))
  : list (string * value) :=
  match props with
  | [] => [(k, v)]
  | (k', v') :: rest =>
      if String.eqb k' k then (k', v) :: rest else (k', v') :: set_prop k v rest
  end.

(** The object a well-typed [Todo] is at run time, and the array a
    well-typed [Todo[]] is. *)
Definition encode (todo : Todo) : value :=
  VObj [("id", VNum (id todo)); ("text", VStr (text todo)); ("done", VBool (done todo))].

Definition encode_todos (todos : list Todo) : value :=
  VArr (map encode todos).

(** The run-time values TypeScript accepts as a [Todo] and as a [Todo[]]:
    typing is structural, so the three properties may come in any order
    and next to others. *)
Definition is_todo (v : value) : bool :=
  match v with
  | VObj props =>
      match lookup_prop "id" props, lookup_prop "text" props, lookup_prop "done" props with
      | Some (VNum _), Some (VStr _), Some (VBool _) => true
      | _, _, _ => false
      end
  | _ => false
  end.

Definition is_todos (v : value) : bool :=
  match v with
  | VArr elems => forallb is_todo elems
  | _ => false
  end.

(** ** JSON.stringify

    [JSON.stringify] and [JSON.parse] are built into the JavaScript
    platform; the repository only calls them (lines 41 and 68). *)

Module JSON.

Definition dquote : ascii := "034"%char.
Definition backslash : ascii := "092"%char.

(** The lower-case hexadecimal digit of a number below sixteen. *)
Definition hex_digit (n : N) : ascii :=
  ascii_of_N (if (n <? 10)%N then n + 48 else n + 87)%N.

(** Modelled from the spec: the text of one character inside a JSON string
    literal, as JSON.stringify (absent from src/) writes it.  The quote,
    the backslash and the control characters below U+0020 are escaped,
    every other character stands for itself. *)
Definition escape_char (c : ascii) : string :=
  match c with
  | "034"%char => String backslash (String dquote EmptyString)
  | "092"%char => String backslash (String backslash EmptyString)
  | "008"%char => String backslash "b"
  | "012"%char => String backslash "f"
  | "010"%char => String backslash "n"
  | "013"%char => String backslash "r"
  | "009"%char => String backslash "t"
  | _ =>
      if (N_of_ascii c <? 32)%N
      then String backslash
             (String "u" (String "0" (String "0"
               (String (hex_digit (N_of_ascii c / 16))
                 (String (hex_digit (N_of_ascii c mod 16)) EmptyString)))))
      else String c EmptyString
  end.

Fixpoint escape (s : string) : string :=
  match s with
  | EmptyString => EmptyString
  | String c s' => escape_char c +:+ escape s'
  end.

Definition quote (s : string) : string :=
  String dquote (escape s +:+ String dquote EmptyString).

(** Modelled from the spec: the decimal text of an integer, as
    JSON.stringify (absent from src/) writes a number that is one: the
    digits, after a minus sign when negative ("<integer>" in section 6). *)
Definition number_to_string (n : Z) : string :=
  NilEmpty.string_of_int (Z.to_int n).

Fixpoint join (sep : string) (parts : list string) : string :=
  match parts with
  | [] => EmptyString
  | [part] => part
  | part :: rest => part +:+ sep +:+ join sep rest
  end.

(** Modelled from the spec: JSON.stringify (absent from src/) of one
    argument, no replacer and no indentation.  Section 6 gives the shape,
    [[{"id": <integer>, "text": <string>, "done": <boolean>}, ...]]; the
    platform writes it without white space, the elements and the
    properties in their order, separated by commas. *)
Fixpoint stringify (v : value) : string :=
  match v with
  | VNull => "null"
  | VBool true => "true"
  | VBool false => "false"
  | VNum n => number_to_string n
  | VStr s => quote s
  | VArr elems => "[" +:+ join "," (map stringify elems) +:+ "]"
  | VObj props =>
      "{" +:+ join "," (map (fun kv => quote (fst kv) +:+ ":" +:+ stringify (snd kv)) props)
          +:+ "}"
  end.

(** *** JSON.parse: the tokens *)

Inductive token : Type :=
| TLBrace | TRBrace | TLBracket | TRBracket | TColon | TComma
| TString (s : string)
| TNumber (n : Z)
| TTrue | TFalse | TNull.

(** The scanner reads one character at a time. *)
Inductive lex_state : Type :=
| LDefault                                  (* between tokens *)
| LLiteral (rest : string) (tok : token)    (* inside true, false or null *)
| LString (acc : string)                    (* inside a string literal *)
| LEscape (acc : string)                    (* after a backslash *)
| LUnicode (acc : string) (code : N) (seen : nat)  (* after backslash-u *)
| LMinus                                    (* after a minus sign *)
| LZero (neg : bool)                        (* after a leading zero *)
| LDigits (neg : bool) (n : Z).             (* inside the integer part *)

(** The value of a decimal digit: the characters 0 to 9 have the codes 48
    to 57. *)
Definition digit_of (c : ascii) : option Z :=
  let code := Z.of_N (N_of_ascii c) in
  if (48 <=? code) && (code <=? 57) then Some (code - 48) else None.

(** The value of a hexadecimal digit, in either case: a to f have the codes
    97 to 102, A to F the codes 65 to 70. *)
Definition hex_of (c : ascii) : option N :=
  let code := N_of_ascii c in
  match digit_of c with
  | Some d => Some (Z.to_N d)
  | None =>
      if ((97 <=? code) && (code <=? 102))%N then Some (code - 87)%N
      else if ((65 <=? code) && (code <=? 70))%N then Some (code - 55)%N
      else None
  end.

Definition snoc (acc : string) (c : ascii) : string :=
  acc +:+ String c EmptyString.

(** A character met between two tokens. *)
Definition lex_default (c : ascii) : result (lex_state * list token) :=
  match c with
  | " " | "009" | "010" | "013" => Ok (LDefault, [])
  | "{" => Ok (LDefault, [TLBrace])
  | "}" => Ok (LDefault, [TRBrace])
  | "[" => Ok (LDefault, [TLBracket])
  | "]" => Ok (LDefault, [TRBracket])
  | ":" => Ok (LDefault, [TColon])
  | "," => Ok (LDefault, [TComma])
  | "034" => Ok (LString EmptyString, [])
  | "t" => Ok (LLiteral "rue" TTrue, [])
  | "f" => Ok (LLiteral "alse" TFalse, [])
  | "n" => Ok (LLiteral "ull" TNull, [])
  | "-" => Ok (LMinus, [])
  | "0" => Ok (LZero false, [])
  | _ =>
      match digit_of c with
      | Some d => Ok (LDigits false d, [])
      | None => Throw SyntaxError
      end
  end%char.

(** The number that ends where the integer part does.  Minus zero is not
    an integer of this development. *)
Definition number_token (neg : bool) (n : Z) : result token :=
  if neg then (if n =? 0 then Unmodelled else Ok (TNumber (- n)))
  else Ok (TNumber n).

(** The character after an integer part: a fraction or an exponent is
    outside this development, anything else ends the number and is read
    as a character between tokens. *)
Definition lex_after_number (neg : bool) (n : Z) (c : ascii)
  : result (lex_state * list token) :=
  match c with
  | "." | "e" | "E" => Unmodelled
  | _ =>
      let! tok := number_token neg n in
      let! next := lex_default c in
      Ok (fst next, tok :: snd next)
  end%char.

Definition lex_step (st : lex_state) (c : ascii) : result (lex_state * list token) :=
  match st with
  | LDefault => lex_default c
  | LLiteral rest tok =>
      match rest with
      | String c' rest' =>
          if Ascii.eqb c c'
          then match rest' with
               | EmptyString => Ok (LDefault, [tok])
               | _ => Ok (LLiteral rest' tok, [])
               end
          else Throw SyntaxError
      | EmptyString => Throw SyntaxError
      end
  | LString acc =>
      match c with
      | "034" => Ok (LDefault, [TString acc])
      | "092" => Ok (LEscape acc, [])
      | _ => if (N_of_ascii c <? 32)%N then Throw SyntaxError
             else Ok (LString (snoc acc c), [])
      end%char
  | LEscape acc =>
      match c with
      | "034" => Ok (LString (snoc acc "034"), [])
      | "092" => Ok (LString (snoc acc "092"), [])
      | "/" => Ok (LString (snoc acc "/"), [])
      | "b" => Ok (LString (snoc acc "008"), [])
      | "f" => Ok (LString (snoc acc "012"), [])
      | "n" => Ok (LString (snoc acc "010"), [])
      | "r" => Ok (LString (snoc acc "013"), [])
      | "t" => Ok (LString (snoc acc "009"), [])
      | "u" => Ok (LUnicode acc 0 0, [])
      | _ => Throw SyntaxError
      end%char
  | LUnicode acc code seen =>
      match hex_of c with
      | None => Throw SyntaxError
      | Some h =>
          let code' := (code * 16 + h)%N in
          if (seen <? 3)%nat then Ok (LUnicode acc code' (S seen), [])
          else if (code' <? 128)%N
               then Ok (LString (snoc acc (ascii_of_N code')), [])
               else Unmodelled
      end
  | LMinus =>
      match digit_of c with
      | Some d => if d =? 0 then Ok (LZero true, []) else Ok (LDigits true d, [])
      | None => Throw SyntaxError
      end
  | LZero neg =>
      match digit_of c with
      | Some _ => Throw SyntaxError
      | None => lex_after_number neg 0 c
      end
  | LDigits neg n =>
      match digit_of c with
      | Some d => Ok (LDigits neg (10 * n + d), [])
      | None => lex_after_number neg n c
      end
  end.

Fixpoint lex_run (st : lex_state) (toks : list token) (s : string)
  : result (lex_state * list token) :=
  match s with
  | EmptyString => Ok (st, toks)
  | String c s' =>
      let! next := lex_step st c in
      lex_run (fst next) (toks ++ snd next) s'
  end.

(** The end of the text. *)
Definition lex_end (st : lex_state) (toks : list token) : result (list token) :=
  match st with
  | LDefault => Ok toks
  | LZero neg => let! tok := number_token neg 0 in Ok (toks ++ [tok])
  | LDigits neg n => let! tok := number_token neg n in Ok (toks ++ [tok])
  | _ => Throw SyntaxError
  end.

Definition tokenize (s : string) : result (list token) :=
  let! final := lex_run LDefault [] s in
  lex_end (fst final) (snd final).

(** *** JSON.parse: the grammar

    A pushdown recogniser over the tokens.  A frame is a container that is
    open around the value being read: an array with the elements read so
    far, or an object with its properties and the name awaiting its
    value. *)

Inductive frame : Type :=
| InArr (elems : list value)
| InObj (props : list (string * value)) (key : string).

Inductive parse_state : Type :=
| PValue (stack : list frame)          (* a value starts here *)
| PArrOpen (stack : list frame)        (* after [: a value or ] *)
| PArrSep (elems : list value) (stack : list frame)   (* after an element *)
| PObjOpen (stack : list frame)        (* after {: a name or } *)
| PKey (props : list (string * value)) (stack : list frame)  (* after a comma *)
| PColon (props : list (string * value)) (key : string) (stack : list frame)
| PObjSep (props : list (string * value)) (stack : list frame) (* after a member *)
| PDone (v : value).                   (* the whole value is read *)

(** A finished value goes into the innermost open container. *)
Definition put (v : value) (stack : list frame) : parse_state :=
  match stack with
  | [] => PDone v
  | InArr elems :: stack' => PArrSep (elems ++ [v]) stack'
  | InObj props key :: stack' => PObjSep (set_prop key v props) stack'
  end.

Definition start_value (tok : token) (stack : list frame) : result parse_state :=
  match tok with
  | TNull => Ok (put VNull stack)
  | TTrue => Ok (put (VBool true) stack)
  | TFalse => Ok (put (VBool false) stack)
  | TNumber n => Ok (put (VNum n) stack)
  | TString s => Ok (put (VStr s) stack)
  | TLBracket => Ok (PArrOpen stack)
  | TLBrace => Ok (PObjOpen stack)
  | _ => Throw SyntaxError
  end.

(** Property names made of digits only are enumerated before the others
    by JavaScript; objects with such names are outside this development. *)
Fixpoint all_digits (s : string) : bool :=
  match s with
  | EmptyString => true
  | String c s' =>
      match digit_of c with Some _ => all_digits s' | None => false end
  end.

Definition index_like (k : string) : bool :=
  match k with
  | EmptyString => false
  | _ => all_digits k
  end.

Definition start_member (props : list (string * value)) (k : string)
    (stack : list frame) : result parse_state :=
  if index_like k then Unmodelled else Ok (PColon props k stack).

Definition parse_step (st : parse_state) (tok : token) : result parse_state :=
  match st with
  | PValue stack => start_value tok stack
  | PArrOpen stack =>
      match tok with
      | TRBracket => Ok (put (VArr []) stack)
      | _ => start_value tok (InArr [] :: stack)
      end
  | PArrSep elems stack =>
      match tok with
      | TComma => Ok (PValue (InArr elems :: stack))
      | TRBracket => Ok (put (VArr elems) stack)
      | _ => Throw SyntaxError
      end
  | PObjOpen stack =>
      match tok with
      | TRBrace => Ok (put (VObj []) stack)
      | TString k => start_member [] k stack
      | _ => Throw SyntaxError
      end
  | PKey props stack =>
      match tok with
      | TString k => start_member props k stack
      | _ => Throw SyntaxError
      end
  | PColon props key stack =>
      match tok with
      | TColon => Ok (PValue (InObj props key :: stack))
      | _ => Throw SyntaxError
      end
  | PObjSep props stack =>
      match tok with
      | TComma => Ok (PKey props stack)
      | TRBrace => Ok (put (VObj props) stack)
      | _ => Throw SyntaxError
      end
  | PDone _ => Throw SyntaxError
  end.

Fixpoint parse_run (st : parse_state) (toks : list token) : result parse_state :=
  match toks with
  | [] => Ok st
  | tok :: toks' => let! st' := parse_step st tok in parse_run st' toks'
  end.

Definition parse_end (st : parse_state) : result value :=
  match st with
  | PDone v => Ok v
  | _ => Throw SyntaxError
  end.

(** Modelled from the spec: JSON.parse (absent from src/) of one argument,
    no reviver: the value a JSON text denotes.  [Throw SyntaxError] is the
    exception JSON.parse throws on a text that is not JSON, the failed
    deserialization of sections 4.3 and 7. *)
Definition parse (s : string) : result value :=
  let! toks := tokenize s in
  let! final := parse_run (PValue []) toks in
  parse_end final.

End JSON.

(** ** The persisted slot

    [localStorage] is a finite map from keys to strings.  Every call made to
    it is recorded, so that the calls of a piece of code can be counted.
    Storage is taken to be unbounded here: [setItem] always succeeds.  The
    storage that may refuse a write is that of [Page], further down. *)

Inductive storage_call : Type :=
| GetItem (key : string)
| SetItem (key : string) (data : string).

Record world : Type := mkWorld {
  localStorage : gmap string string;
  calls : list storage_call
}.

Definition getItem (key : string) (w : world) : option string * world :=
  (localStorage w !! key,
   {| localStorage := localStorage w; calls := calls w ++ [GetItem key] |}).

Definition setItem (key data : string) (w : world) : world :=
  {| localStorage := <[key := data]> (localStorage w);
     calls := calls w ++ [SetItem key data] |}.

(** ** The component *)

Module App.

(** The two pieces of state of the component (lines 38 and 53).  At run
    time [todos] is whatever value reached [setTodos]: the cast
    [JSON.parse(todos) as Todo[]] checks nothing. *)
Record state : Type := mkState {
  todos : value;
  inputValue : string
}.

(** [if (todos)] on a [string | null] (line 40): [null] and the empty
    string are falsy. *)
Definition truthy (item : option string) : bool :=
  match item with
  | None => false
  | Some EmptyString => false
  | Some _ => true
  end.

(** The initialiser passed to [useState] (lines 38-44). *)
Definition initial_todos (w : world) : result value * world :=
  let (item, w') := getItem "todos" w in
  if truthy item
  then match item with
       | Some data => (JSON.parse data, w')
       | None => (Ok (VArr []), w')
       end
  else (Ok (VArr []), w').

(** The effect (lines 67-69):
    [localStorage.setItem('todos', JSON.stringify(todos))]. *)
Definition persist (st : state) (w : world) : world :=
  setItem "todos" (JSON.stringify (todos st)) w.

(** *** What the handlers need of JavaScript *)

(** [v.k] for the two names the handlers read, [id] and [done], which no
    built-in prototype defines: reading a property of [null] throws, an
    object answers with its own property, and every other value with
    [undefined], here [None]. *)
Definition get_field (v : value) (k : string) : result (option value) :=
  match v with
  | VNull => Throw TypeError
  | VObj props => Ok (lookup_prop k props)
  | _ => Ok None
  end.

(** [v === n] for a number [n]. *)
Definition is_number (v : option value) (n : Z) : bool :=
  match v with
  | Some (VNum m) => m =? n
  | _ => false
  end.

(** ToBoolean, as [!v] applies it. *)
Definition to_boolean (v : option value) : bool :=
  match v with
  | None => false
  | Some VNull => false
  | Some (VBool b) => b
  | Some (VNum n) => negb (n =? 0)
  | Some (VStr s) => negb (String.eqb s EmptyString)
  | Some (VArr _) => true
  | Some (VObj _) => true
  end.

(** [{ ...v, done: b }]: the own properties of [v], then [done].  The
    properties of a string or of an array are its indices, which are
    outside this development. *)
Definition spread_done (v : value) (b : bool) : result value :=
  match v with
  | VObj props => Ok (VObj (set_prop "done" (VBool b) props))
  | VNull | VBool _ | VNum _ => Ok (VObj [("done", VBool b)])
  | VStr _ | VArr _ => Unmodelled
  end.

Fixpoint map_result {A B : Type} (f : A -> result B) (l : list A) : result (list B) :=
  match l with
  | [] => Ok []
  | x :: l' =>
      let! y := f x in
      let! ys := map_result f l' in
      Ok (y :: ys)
  end.

Fixpoint filter_result {A : Type} (f : A -> result bool) (l : list A) : result (list A) :=
  match l with
  | [] => Ok []
  | x :: l' =>
      let! keep := f x in
      let! xs := filter_result f l' in
      Ok (if keep then x :: xs else xs)
  end.

(** [v.map(f)] and [v.filter(f)]: only an array has these methods, on any
    other value the call throws a TypeError. *)
Definition array_map (v : value) (f : value -> result value) : result value :=
  match v with
  | VArr elems => let! elems' := map_result f elems in Ok (VArr elems')
  | _ => Throw TypeError
  end.

Definition array_filter (v : value) (f : value -> result bool) : result value :=
  match v with
  | VArr elems => let! elems' := filter_result f elems in Ok (VArr elems')
  | _ => Throw TypeError
  end.

(** *** The handlers *)

(** The text input (line 84): [setInputValue(e.target.value)]. *)
Definition onChange_input (data : string) (st : state) : result state :=
  Ok {| todos := todos st; inputValue := data |}.

(** The add button (lines 99-105).  [...todos] iterates its operand: an
    array gives its elements, [null], a boolean, a number and a plain
    object are not iterable, and a string gives its code points, which
    are outside this development. *)
Definition onClick_add (st : state) : result state :=
  match todos st with
  | VArr elems =>
      Ok {| todos :=
              VArr (elems ++
                    [VObj [("id", VNum (Z.of_nat (length elems) + 1));
                           ("text", VStr (inputValue st));
                           ("done", VBool false)]]);
            inputValue := EmptyString |}
  | VStr _ => Unmodelled
  | _ => Throw TypeError
  end.

(** The function the checkbox maps over the list (line 138):
    [todo => todo.id === item.id ? { ...todo, done: !todo.done } : todo]. *)
Definition flip_matching (item_id : Z) (todo : value) : result value :=
  let! i := get_field todo "id" in
  if is_number i item_id
  then let! d := get_field todo "done" in
       spread_done todo (negb (to_boolean d))
  else Ok todo.

(** The checkbox of the row of [item] (lines 135-141). *)
Definition onChange_checkbox (item_id : Z) (st : state) : result state :=
  let! todos' := array_map (todos st) (flip_matching item_id) in
  Ok {| todos := todos'; inputValue := inputValue st |}.

(** The test the delete button filters the list with (line 173):
    [todo => todo.id !== item.id]. *)
Definition keep_others (item_id : Z) (todo : value) : result bool :=
  let! i := get_field todo "id" in
  Ok (negb (is_number i item_id)).

(** The delete button of the row of [item] (lines 172-174). *)
Definition onClick_delete (item_id : Z) (st : state) : result state :=
  let! todos' := array_filter (todos st) (keep_others item_id) in
  Ok {| todos := todos'; inputValue := inputValue st |}.

End App.

Import ListStore.

(** ** The words of the specification, to compare the code with *)

Definition ids (l : list Todo) : list Z := map id l.

(** "max(existing ids, default 0) + 1" (section 4.1). *)
Definition max_id (l : list Todo) : Z :=
  match ids l with
  | [] => 0
  | i :: rest => fold_left Z.max rest i
  end.

Definition spec_new_id (l : list Todo) : Z := max_id l + 1.

(** "identical except that item's done is flipped; all other items and
    relative order unchanged" (section 4.1). *)
Definition toggles_one (l : list Todo) (i : Z) (l' : list Todo) : Prop :=
  exists l1 x l2, l = l1 ++ x :: l2 /\ id x = i /\ l' = l1 ++ negate_done x :: l2.

(** "all items except the one with matching id" (section 4.1). *)
Definition removes_one (l : list Todo) (i : Z) (l' : list Todo) : Prop :=
  exists l1 x l2, l = l1 ++ x :: l2 /\ id x = i /\ l' = l1 ++ l2.

(** The list after adding the given texts, one after the other, to the
    empty list. *)
Definition adds (texts : list string) : list Todo :=
  fold_left add texts [].

(** The number of items that carry identifier [i]. *)
Definition count_id (i : Z) (l : list Todo) : nat :=
  length (List.filter (fun todo => id todo =? i) l).

(** The state of the regression scenario of section 8:
    add("a"), add("b"), remove(1), add("c") from the empty list. *)
Definition scenario : list Todo :=
  add (remove (add (add [] "a") "b") 1) "c".

(** ** The tokens of a well-typed list

    What the scanner is to find in the text of an encoded [Todo[]]. *)

Definition todo_tokens (todo : Todo) : list JSON.token :=
  [JSON.TLBrace;
   JSON.TString "id"; JSON.TColon; JSON.TNumber (id todo); JSON.TComma;
   JSON.TString "text"; JSON.TColon; JSON.TString (text todo); JSON.TComma;
   JSON.TString "done"; JSON.TColon;
   (if done todo then JSON.TTrue else JSON.TFalse);
   JSON.TRBrace].

Fixpoint todos_tokens (l : list Todo) : list JSON.token :=
  match l with
  | [] => []
  | [todo] => todo_tokens todo
  | todo :: rest => todo_tokens todo ++ JSON.TComma :: todos_tokens rest
  end.

(** ** Sample texts

    In the examples a JSON text is written with single quotes where the
    text has double quotes. *)

Definition sq (s : string) : string :=
  string_of_list_ascii
    (map (fun c => if Ascii.eqb c "'" then JSON.dquote else c)
         (list_ascii_of_string s)).

Definition slot_with (data : string) : world :=
  {| localStorage := {[ "todos" := data ]}; calls := [] |}.

(** ** The rendered list (App.tsx, lines 117-180)

    One row per item, in the order of the list.  A row carries what the JSX
    reads of its item: the React key, the state of the checkbox, the
    decoration of the text and the text itself. *)

Record row : Type := mkRow {
  key : Z;                   (* key={item.id} *)
  checked : bool;            (* checked={item.done} *)
  textDecoration : string;   (* item.done ? 'line-through' : 'none' *)
  label : string             (* {item.text} *)
}.

Definition make_row (n : Z) (s : string) (b : bool) : row :=
  {| key := n;
     checked := b;
     textDecoration := if b then "line-through" else "none";
     label := s |}.

Module View.

(** [todos.map((item: Todo) => <li key={item.id}> ... </li>)] on a
    well-typed list. *)
Definition render_rows (todos : list Todo) : list row :=
  map (fun item => make_row (id item) (text item) (done item)) todos.

(** The checkbox of row [k] calls the toggle with the identifier of the
    item the row was rendered from (line 138, [item.id]).  A row that is
    not on the page cannot be clicked: the list stays as it is. *)
Definition click_checkbox (todos : list Todo) (k : nat) : list Todo :=
  match nth_error todos k with
  | Some item => toggle todos (id item)
  | None => todos
  end.

(** The delete button of row [k] (line 173, [item.id]). *)
Definition click_delete (todos : list Todo) (k : nat) : list Todo :=
  match nth_error todos k with
  | Some item => remove todos (id item)
  | None => todos
  end.

End View.

(** ** The life of the component

    What React does with the hooks of [App]: the initialiser of [useState]
    runs when the component mounts and never again; the component renders;
    the effect, whose dependency is [todos], runs after the first render and
    after every render in which [todos] is a new array.  The three list
    handlers pass a new array to [setTodos], the text input does not touch
    [todos]. *)

Inductive ui_event : Type :=
| Typing (data : string)     (* the text input changes to [data] *)
| ClickAdd                   (* the add button *)
| ClickCheckbox (k : nat)    (* the checkbox of row [k] *)
| ClickDelete (k : nat).     (* the delete button of row [k] *)

Module Session.

(** The row of one element of [todos] at run time.  The row reads [id],
    [text] and [done] of its item, and the first of these reads throws on
    [null]; what React makes of an element that is not a [Todo] is outside
    this development. *)
Definition render_item (item : value) : result row :=
  match item with
  | VNull => Throw TypeError
  | VObj props =>
      match lookup_prop "id" props, lookup_prop "text" props, lookup_prop "done" props with
      | Some (VNum n), Some (VStr s), Some (VBool b) => Ok (make_row n s b)
      | _, _, _ => Unmodelled
      end
  | _ => Unmodelled
  end.

(** [todos.map(...)] in the render (line 118): only an array has [map]. *)
Definition render (st : App.state) : result (list row) :=
  match App.todos st with
  | VArr elems => App.map_result render_item elems
  | _ => Throw TypeError
  end.

(** A new state reaches the page: the component renders, then the effect
    writes the list.  When the render throws the effect does not run. *)
Definition commit (r : result App.state) (w : world) : result App.state * world :=
  match r with
  | Ok st =>
      match render st with
      | Ok _ => (Ok st, App.persist st w)
      | Throw e => (Throw e, w)
      | Unmodelled => (Unmodelled, w)
      end
  | Throw e => (Throw e, w)
  | Unmodelled => (Unmodelled, w)
  end.

(** Mounting: the initialiser, the first render, the effect.  This is the
    mount that completes; of one that throws it gives the exception, and
    [Page.mount] also the second attempt React makes. *)
Definition mount (w : world) : result App.state * world :=
  let (r, w') := App.initial_todos w in
  commit (let! v := r in Ok {| App.todos := v; App.inputValue := EmptyString |}) w'.

(** The handler of row [k] is the one made for that row by the last
    render; without such a row there is no click.  The rows on the page are
    those of the last render as long as their keys are pairwise distinct,
    which is what React asks of keys. *)
Definition on_row (k : nat) (handler : Z -> App.state -> result App.state)
    (st : App.state) (w : world) : result App.state * world :=
  match render st with
  | Ok rows =>
      match nth_error rows k with
      | Some r => commit (handler (key r) st) w
      | None => (Ok st, w)
      end
  | Throw e => (Throw e, w)
  | Unmodelled => (Unmodelled, w)
  end.

Definition step (ev : ui_event) (st : App.state) (w : world)
  : result App.state * world :=
  match ev with
  | Typing data => (App.onChange_input data st, w)
  | ClickAdd => commit (App.onClick_add st) w
  | ClickCheckbox k => on_row k App.onChange_checkbox st w
  | ClickDelete k => on_row k App.onClick_delete st w
  end.

(** The events one after the other, up to the first exception. *)
Fixpoint run (evs : list ui_event) (st : App.state) (w : world)
  : result App.state * world :=
  match evs with
  | [] => (Ok st, w)
  | ev :: evs' =>
      match step ev st w with
      | (Ok st', w') => run evs' st' w'
      | failed => failed
      end
  end.

(** A visit of the page: mount, then the events. *)
Definition visit (w : world) (evs : list ui_event) : result App.state * world :=
  match mount w with
  | (Ok st, w') => run evs st w'
  | failed => failed
  end.

(** The same events on a well-typed list and the text of the input. *)
Definition typed_step (s : list Todo * string) (ev : ui_event) : list Todo * string :=
  match ev with
  | Typing data => (fst s, data)
  | ClickAdd => (add (fst s) (snd s), EmptyString)
  | ClickCheckbox k => (View.click_checkbox (fst s) k, snd s)
  | ClickDelete k => (View.click_delete (fst s) k, snd s)
  end.

Definition typed_run (evs : list ui_event) (s : list Todo * string) : list Todo * string :=
  fold_left typed_step evs s.

Definition is_add (ev : ui_event) : bool :=
  match ev with ClickAdd => true | _ => false end.

Definition is_delete (ev : ui_event) : bool :=
  match ev with ClickDelete _ => true | _ => false end.

(** The number of clicks on the add button. *)
Definition adds_in (evs : list ui_event) : nat :=
  length (List.filter is_add evs).

(** At most [a] items, every identifier between 1 and [a]. *)
Definition bounded (a : nat) (l : list Todo) : Prop :=
  (length l <= a)%nat /\ Forall (fun t => 1 <= id t <= Z.of_nat a) l.

(** No key occurs twice. *)
Fixpoint distinct (keys : list Z) : bool :=
  match keys with
  | [] => true
  | k :: rest => negb (existsb (Z.eqb k) rest) && distinct rest
  end.

(** The keys of the rows are pairwise distinct at every render of the run:
    before the first event and after each one. *)
Fixpoint keys_stay_distinct (evs : list ui_event) (s : list Todo * string) : bool :=
  distinct (ids (fst s)) &&
  match evs with
  | [] => true
  | ev :: evs' => keys_stay_distinct evs' (typed_step s ev)
  end.

End Session.

(** The slot holds the text of the list of [st]. *)
Definition in_sync (st : App.state) (w : world) : Prop :=
  localStorage w !! "todos" = Some (JSON.stringify (App.todos st)).

(** The calls that write the slot. *)
Definition is_write (c : storage_call) : bool :=
  match c with
  | SetItem k _ => String.eqb k "todos"
  | GetItem _ => false
  end.

(** ** A storage that may refuse a write

    [setItem] throws when the storage cannot take the text, for instance
    when its quota is exceeded.  The effect (lines 67-69) does not catch the
    exception, so it leaves the component and React takes the page down.
    [accepts store key data] tells whether a storage that holds [store]
    takes [data] under [key]. *)

Module Page.

Definition policy : Type := gmap string string -> string -> string -> bool.

Definition may_refuse (accepts : policy) : Prop :=
  exists store data, accepts store "todos" data = false.

Inductive outcome : Type :=
| Completed (st : App.state)   (* the page shows the list of [st] *)
| Threw (e : exn)              (* the initialiser, a render or a handler threw *)
| WriteRefused                 (* [setItem] threw in the effect *)
| Outside.                     (* outside this development *)

Definition lift (r : result App.state) : outcome :=
  match r with
  | Ok st => Completed st
  | Throw e => Threw e
  | Unmodelled => Outside
  end.

(** The effect: the call is made in either case; refused, it changes
    nothing in the storage. *)
Definition effect (accepts : policy) (st : App.state) (w : world) : outcome * world :=
  if accepts (localStorage w) "todos" (JSON.stringify (App.todos st))
  then (Completed st, App.persist st w)
  else (WriteRefused,
        {| localStorage := localStorage w;
           calls := calls w ++ [SetItem "todos" (JSON.stringify (App.todos st))] |}).

(** A new state reaches the page: the render, then the effect. *)
Definition commit (accepts : policy) (r : result App.state) (w : world)
  : outcome * world :=
  match r with
  | Ok st =>
      match Session.render st with
      | Ok _ => effect accepts st w
      | Throw e => (Threw e, w)
      | Unmodelled => (Outside, w)
      end
  | Throw e => (Threw e, w)
  | Unmodelled => (Outside, w)
  end.

(** The initialiser and the first render. *)
Definition first_render (w : world) : result App.state * world :=
  let (r, w') := App.initial_todos w in
  (let! v := r in
   let! _ := Session.render {| App.todos := v; App.inputValue := EmptyString |} in
   Ok {| App.todos := v; App.inputValue := EmptyString |},
   w').

(** Mounting.  When the first render throws, React renders the component
    once more before it gives up, and the initialiser runs again. *)
Definition mount (accepts : policy) (w : world) : outcome * world :=
  match first_render w with
  | (Ok st, w1) => effect accepts st w1
  | (Throw _, w1) =>
      match first_render w1 with
      | (Ok st, w2) => effect accepts st w2
      | (Throw e, w2) => (Threw e, w2)
      | (Unmodelled, w2) => (Outside, w2)
      end
  | (Unmodelled, w1) => (Outside, w1)
  end.

Definition on_row (accepts : policy) (k : nat)
    (handler : Z -> App.state -> result App.state)
    (st : App.state) (w : world) : outcome * world :=
  match Session.render st with
  | Ok rows =>
      match nth_error rows k with
      | Some r => commit accepts (handler (key r) st) w
      | None => (Completed st, w)
      end
  | Throw e => (Threw e, w)
  | Unmodelled => (Outside, w)
  end.

Definition step (accepts : policy) (ev : ui_event) (st : App.state) (w : world)
  : outcome * world :=
  match ev with
  | Typing data => (lift (App.onChange_input data st), w)
  | ClickAdd => commit accepts (App.onClick_add st) w
  | ClickCheckbox k => on_row accepts k App.onChange_checkbox st w
  | ClickDelete k => on_row accepts k App.onClick_delete st w
  end.

(** The events one after the other, up to the first exception. *)
Fixpoint run (accepts : policy) (evs : list ui_event) (st : App.state) (w : world)
  : outcome * world :=
  match evs with
  | [] => (Completed st, w)
  | ev :: evs' =>
      match step accepts ev st w with
      | (Completed st', w') => run accepts evs' st' w'
      | failed => failed
      end
  end.

Definition visit (accepts : policy) (w : world) (evs : list ui_event)
  : outcome * world :=
  match mount accepts w with
  | (Completed st, w') => run accepts evs st w'
  | failed => failed
  end.

(** A visit on a storage that may refuse a write and the same visit on one
    that does not end alike, and leave the same storage when they
    complete. *)
Definition agrees (p : outcome * world) (q : result App.state * world) : Prop :=
  fst p = lift (fst q) /\ (forall st, fst q = Ok st -> snd p = snd q).

End Page.

(** ** The counter (src/unnamed/part_000)

    [counterReducer] switches on the [type] of the action, a string at run
    time; the count is an integer, as the [number] of the code is up to
    2^53. *)

Module ReducerApp.

Definition counterReducer (state : Z) (action_type : string) : Z :=
  if String.eqb action_type "inc" then state + 1
  else if String.eqb action_type "dec" then state - 1
  else if String.eqb action_type "reset" then 0
  else state.

(** [useReducer(counterReducer, 0)] after the given dispatches. *)
Definition count_after (actions : list string) : Z :=
  fold_left counterReducer actions 0.

(** The number of actions of one type. *)
Definition occurrences (t : string) (actions : list string) : nat :=
  length (List.filter (String.eqb t) actions).

End ReducerApp.

(** * Properties of the three transitions *)

Section Transitions.

Implicit Types (l : list Todo) (i : Z) (x : Todo).

Lemma negate_done_involutive x : negate_done (negate_done x) = x.
Proof. destruct x as [n t d]. unfold negate_done; simpl. now rewrite negb_involutive. Qed.

Lemma id_negate_done x : id (negate_done x) = id x.
Proof. reflexivity. Qed.

Lemma add_unfold l t :
  add l t = l ++ [mkTodo (Z.of_nat (length l) + 1) t false].
Proof. reflexivity. Qed.

Lemma toggle_app l1 l2 i : toggle (l1 ++ l2) i = toggle l1 i ++ toggle l2 i.
Proof. unfold toggle. apply map_app. Qed.

Lemma remove_app l1 l2 i : remove (l1 ++ l2) i = remove l1 i ++ remove l2 i.
Proof. unfold remove. apply List.filter_app. Qed.

Lemma toggle_absent l i :
  (forall x, In x l -> id x <> i) -> toggle l i = l.
Proof.
  induction l as [|y l IH]; intros Hno; [reflexivity|].
  simpl. destruct (Z.eqb_spec (id y) i) as [E|_].
  - exfalso. apply (Hno y); [now left | exact E].
  - f_equal. apply IH. intros x Hx. apply Hno. now right.
Qed.

Lemma remove_absent l i :
  (forall x, In x l -> id x <> i) -> remove l i = l.
Proof.
  induction l as [|y l IH]; intros Hno; [reflexivity|].
  simpl. destruct (Z.eqb_spec (id y) i) as [E|_]; simpl.
  - exfalso. apply (Hno y); [now left | exact E].
  - f_equal. apply IH. intros x Hx. apply Hno. now right.
Qed.

Lemma toggle_length l i : length (toggle l i) = length l.
Proof. unfold toggle. apply length_map. Qed.

Lemma toggle_nth l i k x :
  nth_error l k = Some x ->
  nth_error (toggle l i) k = Some (if id x =? i then negate_done x else x).
Proof.
  intros H. unfold toggle. rewrite nth_error_map, H. reflexivity.
Qed.

Lemma toggle_single l1 x l2 :
  (forall y, In y (l1 ++ l2) -> id y <> id x) ->
  toggle (l1 ++ x :: l2) (id x) = l1 ++ negate_done x :: l2.
Proof.
  intros Hno. rewrite toggle_app. simpl. rewrite Z.eqb_refl.
  rewrite !toggle_absent; [reflexivity| |];
    intros y Hy; apply Hno, in_or_app; auto.
Qed.

Lemma remove_single l1 x l2 :
  (forall y, In y (l1 ++ l2) -> id y <> id x) ->
  remove (l1 ++ x :: l2) (id x) = l1 ++ l2.
Proof.
  intros Hno. rewrite remove_app. simpl. rewrite Z.eqb_refl. simpl.
  rewrite !remove_absent; [reflexivity| |];
    intros y Hy; apply Hno, in_or_app; auto.
Qed.

Lemma remove_In l i x : In x (remove l i) <-> In x l /\ id x <> i.
Proof.
  unfold remove. rewrite List.filter_In, negb_true_iff, Z.eqb_neq. reflexivity.
Qed.

Lemma remove_sublist l i : sublist (remove l i) l.
Proof.
  induction l as [|y l IH]; simpl; [constructor|].
  destruct (id y =? i); simpl; now constructor.
Qed.

Lemma remove_length l i : (length (remove l i) + count_id i l = length l)%nat.
Proof.
  unfold count_id. induction l as [|y l IH]; simpl; [reflexivity|].
  destruct (id y =? i); simpl; lia.
Qed.

Lemma remove_position l i k x :
  nth_error l k = Some x -> id x <> i ->
  nth_error (remove l i) (k - count_id i (firstn k l)) = Some x.
Proof.
  intros Hk Hx.
  destruct (nth_error_split l k Hk) as (l1 & l2 & -> & <-).
  rewrite firstn_app, Nat.sub_diag, firstn_all, app_nil_r.
  rewrite remove_app. simpl.
  apply Z.eqb_neq in Hx. rewrite Hx. simpl.
  pose proof (remove_length l1 i) as Hlen.
  replace (length l1 - count_id i l1)%nat with (length (remove l1 i) + 0)%nat by lia.
  rewrite nth_error_app2 by lia.
  replace (length (remove l1 i) + 0 - length (remove l1 i))%nat with 0%nat by lia.
  reflexivity.
Qed.

End Transitions.

(** ** Identifiers: what [add] assigns *)

(** C1 (the code departs from it).  The new item goes last, with the given
    text and [done] false, but its identifier is the length of the list plus
    one, not the largest identifier plus one: after add("a"), add("b"),
    remove(1) the list holds the single item 2, and adding to it assigns 2
    again where the specification asks for 3. *)
Theorem add_assigns_length_plus_one :
  (forall l t, add l t = l ++ [mkTodo (Z.of_nat (length l) + 1) t false]) /\
  remove (add (add [] "a") "b") 1 = [mkTodo 2 "b" false] /\
  add [mkTodo 2 "b" false] "c" = [mkTodo 2 "b" false; mkTodo 2 "c" false] /\
  spec_new_id [mkTodo 2 "b" false] = 3.
Proof. split; [intros l t; apply add_unfold | repeat split]. Qed.

(** C4 (the code departs from it).  The regression scenario ends with two
    items that both carry identifier 2. *)
Theorem scenario_ids_collide :
  scenario = [mkTodo 2 "b" false; mkTodo 2 "c" false] /\
  ~ List.NoDup (ids scenario).
Proof.
  split; [reflexivity|].
  intros H. inversion H as [|i rest Hnotin _]; subst.
  apply Hnotin. now left.
Qed.

(** C5 (the code departs from it).  Adding to the list that holds the single
    item 2 assigns 2 again; removing the new identifier then empties the
    list instead of giving back the list before the add. *)
Theorem add_then_remove_loses_an_item :
  add [mkTodo 2 "b" false] "c" = [mkTodo 2 "b" false] ++ [mkTodo 2 "c" false] /\
  remove (add [mkTodo 2 "b" false] "c") 2 = [] /\
  remove (add [mkTodo 2 "b" false] "c") 2 <> [mkTodo 2 "b" false].
Proof. repeat split. discriminate. Qed.

(** Where the identifier [add] assigns is not in use, removing it undoes
    the add. *)
Lemma add_then_remove_fresh (l : list Todo) (t : string) :
  (forall x, In x l -> id x <> Z.of_nat (length l) + 1) ->
  remove (add l t) (Z.of_nat (length l) + 1) = l.
Proof.
  intros Hfresh. rewrite add_unfold, remove_app. simpl.
  rewrite Z.eqb_refl. simpl. rewrite app_nil_r.
  now apply remove_absent.
Qed.

(** *** Lists built by adding only

    Without a removal the identifiers are 1, 2, ..., n: they are distinct,
    and the identifier [add] assigns is the one the specification asks
    for. *)

Section AddsOnly.

Lemma ids_add l t : ids (add l t) = ids l ++ [Z.of_nat (length l) + 1].
Proof. unfold ids, add. now rewrite map_app. Qed.

Lemma adds_snoc texts t : adds (texts ++ [t]) = add (adds texts) t.
Proof. unfold adds. now rewrite fold_left_app. Qed.

Lemma length_adds texts : length (adds texts) = length texts.
Proof.
  induction texts as [|t texts IH] using rev_ind; [reflexivity|].
  rewrite adds_snoc. unfold add. rewrite !length_app, IH. reflexivity.
Qed.

Lemma ids_adds texts :
  ids (adds texts) = map Z.of_nat (seq 1 (length texts)).
Proof.
  induction texts as [|t texts IH] using rev_ind; [reflexivity|].
  rewrite adds_snoc, ids_add, IH, length_adds, length_app.
  cbn [length]. rewrite Nat.add_1_r, seq_S, map_app. cbn [map].
  do 2 f_equal. lia.
Qed.

Lemma ids_adds_distinct texts : List.NoDup (ids (adds texts)).
Proof.
  rewrite ids_adds. apply Finite.Injective_map_NoDup.
  - intros a b. apply Nat2Z.inj.
  - apply seq_NoDup.
Qed.

Lemma max_id_snoc l x :
  l <> [] -> max_id (l ++ [x]) = Z.max (max_id l) (id x).
Proof.
  unfold max_id, ids. destruct l as [|y l]; [congruence|]. intros _.
  cbn [map app]. rewrite map_app, fold_left_app. reflexivity.
Qed.

Lemma max_id_adds texts : max_id (adds texts) = Z.of_nat (length texts).
Proof.
  induction texts as [|t texts IH] using rev_ind; [reflexivity|].
  rewrite adds_snoc, add_unfold, length_adds, length_app. cbn [length].
  destruct texts as [|t0 texts]; [reflexivity|].
  rewrite max_id_snoc.
  - rewrite IH. cbn [id]. lia.
  - intros E. apply (f_equal (@length Todo)) in E.
    rewrite length_adds in E. discriminate E.
Qed.

(** After adds only, the new identifier is the largest one plus one. *)
Lemma add_after_adds texts t :
  add (adds texts) t =
  adds texts ++ [mkTodo (spec_new_id (adds texts)) t false].
Proof.
  rewrite add_unfold. unfold spec_new_id.
  now rewrite max_id_adds, length_adds.
Qed.

End AddsOnly.

(** ** [toggle] *)

(** C2, as stated, fails: in the scenario's final list two items carry
    identifier 2, and toggling 2 does not give the list with one of them
    changed. *)
Lemma toggle_changes_two_items :
  (exists x, In x scenario /\ id x = 2) /\
  ~ toggles_one scenario 2 (toggle scenario 2).
Proof.
  split.
  - exists (mkTodo 2 "b" false). split; [now left | reflexivity].
  - intros (l1 & x & l2 & Hl & _ & Hl').
    change scenario with [mkTodo 2 "b" false; mkTodo 2 "c" false] in Hl, Hl'.
    destruct l1 as [|a [|b [|c l1]]]; simpl in Hl, Hl'.
    + injection Hl as <- <-. discriminate Hl'.
    + injection Hl as <- <- <-. discriminate Hl'.
    + injection Hl as _ _ Hl. destruct l2; discriminate Hl.
    + injection Hl as _ _ Hl. discriminate Hl.
Qed.

(** C2 (amended).  [toggle] keeps the length and the order; position by
    position, an item whose identifier is the given one has its [done]
    negated (identifier and text kept) and any other item is unchanged.  So
    the list is unchanged when no item carries the identifier, and exactly
    one item changes when exactly one carries it. *)
Theorem toggle_negates_every_match (l : list Todo) (i : Z) :
  length (toggle l i) = length l /\
  (forall k x, nth_error l k = Some x ->
     nth_error (toggle l i) k = Some (if id x =? i then negate_done x else x)) /\
  ((forall x, In x l -> id x <> i) -> toggle l i = l) /\
  (forall l1 x l2,
     l = l1 ++ x :: l2 -> id x = i -> (forall y, In y (l1 ++ l2) -> id y <> i) ->
     toggle l i = l1 ++ negate_done x :: l2 /\ toggles_one l i (toggle l i)).
Proof.
  split; [apply toggle_length|].
  split; [intros k x; apply toggle_nth|].
  split; [apply toggle_absent|].
  intros l1 x l2 -> <- Hno.
  assert (E : toggle (l1 ++ x :: l2) (id x) = l1 ++ negate_done x :: l2)
    by now apply toggle_single.
  split; [exact E|]. exists l1, x, l2. now rewrite E.
Qed.

Lemma toggle_negates_every_match_witness :
  toggle [mkTodo 1 "a" false; mkTodo 2 "b" false] 7
    = [mkTodo 1 "a" false; mkTodo 2 "b" false] /\
  toggle [mkTodo 1 "a" false; mkTodo 2 "b" false] 2
    = [mkTodo 1 "a" false] ++ negate_done (mkTodo 2 "b" false) :: [].
Proof.
  pose proof (toggle_negates_every_match [mkTodo 1 "a" false; mkTodo 2 "b" false] 7)
    as (_ & _ & Habsent & _).
  pose proof (toggle_negates_every_match [mkTodo 1 "a" false; mkTodo 2 "b" false] 2)
    as (_ & _ & _ & Hone).
  split.
  - apply Habsent. intros x [<-|[<-|[]]]; simpl; lia.
  - apply (Hone [mkTodo 1 "a" false] (mkTodo 2 "b" false) []);
      [reflexivity | reflexivity |].
    intros y [<-|[]]; simpl; lia.
Defined.

(** C6.  Toggling the same identifier twice gives the list back, whether or
    not an item carries the identifier. *)
Theorem toggle_twice (l : list Todo) (i : Z) : toggle (toggle l i) i = l.
Proof.
  induction l as [|x l IH]; [reflexivity|].
  simpl. f_equal; [|exact IH].
  destruct (Z.eqb_spec (id x) i) as [E|N].
  - rewrite id_negate_done. apply Z.eqb_eq in E. rewrite E.
    apply negate_done_involutive.
  - apply Z.eqb_neq in N. now rewrite N.
Qed.

(** ** [remove] *)

(** C3, as stated, fails: in the scenario's final list two items carry
    identifier 2, and removing 2 does not give the list without one of
    them. *)
Lemma remove_deletes_two_items :
  (exists x, In x scenario /\ id x = 2) /\
  ~ removes_one scenario 2 (remove scenario 2).
Proof.
  split.
  - exists (mkTodo 2 "b" false). split; [now left | reflexivity].
  - intros (l1 & x & l2 & Hl & _ & Hl').
    apply (f_equal (@length Todo)) in Hl, Hl'.
    rewrite length_app in Hl, Hl'. simpl in Hl, Hl'. lia.
Qed.

(** C3 (amended).  [remove] keeps exactly the items whose identifier differs
    from the given one, in their order, and never throws: the result is
    shorter than the list by the number of items that carry the identifier,
    and an item that does not carry it moves up by the number of items
    before it that do.  So the list is unchanged when no item carries the
    identifier, and exactly one item goes when exactly one carries it. *)
Theorem remove_drops_every_match (l : list Todo) (i : Z) :
  (forall x, In x (remove l i) <-> In x l /\ id x <> i) /\
  sublist (remove l i) l /\
  ((forall x, In x l -> id x <> i) -> remove l i = l) /\
  (forall l1 x l2,
     l = l1 ++ x :: l2 -> id x = i -> (forall y, In y (l1 ++ l2) -> id y <> i) ->
     remove l i = l1 ++ l2 /\ removes_one l i (remove l i)) /\
  (length (remove l i) + count_id i l = length l)%nat /\
  (forall k x,
     nth_error l k = Some x -> id x <> i ->
     nth_error (remove l i) (k - count_id i (firstn k l)) = Some x) /\
  (forall l1 l2, l = l1 ++ l2 -> remove l i = remove l1 i ++ remove l2 i).
Proof.
  split; [intros x; apply remove_In|].
  split; [apply remove_sublist|].
  split; [apply remove_absent|].
  split.
  - intros l1 x l2 -> <- Hno.
    assert (E : remove (l1 ++ x :: l2) (id x) = l1 ++ l2) by now apply remove_single.
    split; [exact E|]. exists l1, x, l2. now rewrite E.
  - split; [apply remove_length|].
    split; [intros k x; apply remove_position|].
    intros l1 l2 ->. apply remove_app.
Qed.

Lemma remove_drops_every_match_witness :
  remove [mkTodo 1 "a" false; mkTodo 2 "b" false] 7
    = [mkTodo 1 "a" false; mkTodo 2 "b" false] /\
  remove [mkTodo 1 "a" false; mkTodo 2 "b" false] 1
    = [] ++ [mkTodo 2 "b" false] /\
  nth_error (remove [mkTodo 1 "a" false; mkTodo 2 "b" false] 1)
            (1 - count_id 1 (firstn 1 [mkTodo 1 "a" false; mkTodo 2 "b" false]))
    = Some (mkTodo 2 "b" false).
Proof.
  pose proof (remove_drops_every_match [mkTodo 1 "a" false; mkTodo 2 "b" false] 7)
    as (_ & _ & Habsent & _).
  pose proof (remove_drops_every_match [mkTodo 1 "a" false; mkTodo 2 "b" false] 1)
    as (_ & _ & _ & Hone & _ & Hpos & _).
  split; [|split].
  - apply Habsent. intros x [<-|[<-|[]]]; simpl; lia.
  - apply (Hone [] (mkTodo 1 "a" false) [mkTodo 2 "b" false]);
      [reflexivity | reflexivity |].
    intros y [<-|[]]; simpl; lia.
  - apply Hpos; [reflexivity | simpl; lia].
Defined.

(** ** Lists in which an identifier occurs more than once *)

(** C10.  When more than one item carries the identifier, [toggle] negates
    [done] at every position that carries it, and [remove] leaves no item
    that carries it: the list shrinks by the number of such items, at least
    two. *)
Theorem duplicates_are_all_affected (l : list Todo) (i : Z) :
  (2 <= count_id i l)%nat ->
  (forall k x, nth_error l k = Some x -> id x = i ->
     nth_error (toggle l i) k = Some (negate_done x)) /\
  (forall x, In x (remove l i) -> id x <> i) /\
  (length (remove l i) + count_id i l = length l)%nat /\
  (length (remove l i) + 2 <= length l)%nat.
Proof.
  intros Hdup. split; [|split; [|split]].
  - intros k x Hk Hx. rewrite (toggle_nth l i k x Hk).
    apply Z.eqb_eq in Hx. now rewrite Hx.
  - intros x Hx. now apply remove_In in Hx.
  - apply remove_length.
  - pose proof (remove_length l i). lia.
Qed.

Lemma duplicates_are_all_affected_witness :
  nth_error (toggle scenario 2) 0 = Some (mkTodo 2 "b" true) /\
  nth_error (toggle scenario 2) 1 = Some (mkTodo 2 "c" true) /\
  (length (remove scenario 2) + 2 <= length scenario)%nat.
Proof.
  assert (Hdup : (2 <= count_id 2 scenario)%nat) by (vm_compute; lia).
  pose proof (duplicates_are_all_affected scenario 2 Hdup) as (Htoggle & _ & _ & Hlen).
  split; [|split].
  - apply (Htoggle 0%nat (mkTodo 2 "b" false)); reflexivity.
  - apply (Htoggle 1%nat (mkTodo 2 "c" false)); reflexivity.
  - exact Hlen.
Defined.

(** * The textual format: JSON.stringify, then JSON.parse *)

Section Strings.

Lemma append_cons c (s t : string) : String c s +:+ t = String c (s +:+ t).
Proof. reflexivity. Qed.

Lemma append_nil_l (t : string) : EmptyString +:+ t = t.
Proof. reflexivity. Qed.

Lemma append_nil_r (s : string) : s +:+ EmptyString = s.
Proof. induction s as [|c s IH]; [reflexivity|]. now rewrite append_cons, IH. Qed.

Lemma append_assoc (s t u : string) : (s +:+ t) +:+ u = s +:+ (t +:+ u).
Proof. induction s as [|c s IH]; [reflexivity|]. now rewrite !append_cons, IH. Qed.

End Strings.

Lemma lex_run_cons st toks c s :
  JSON.lex_run st toks (String c s) =
  let! next := JSON.lex_step st c in
  JSON.lex_run (fst next) (toks ++ snd next) s.
Proof. reflexivity. Qed.

(** Scan the character at the head of the text, by evaluation. *)
Ltac scan_char :=
  rewrite lex_run_cons;
  match goal with
  | |- context [JSON.lex_step ?st ?c] =>
      let r := eval vm_compute in (JSON.lex_step st c) in
      change (JSON.lex_step st c) with r
  end;
  cbn [bind fst snd].

Section Scanner.

Import JSON.

(** The tokens already produced do not influence the scanner. *)
Lemma lex_run_toks st toks s :
  lex_run st toks s =
  let! r := lex_run st [] s in Ok (fst r, toks ++ snd r).
Proof.
  revert st toks. induction s as [|c s IH]; intros st toks; simpl.
  - now rewrite app_nil_r.
  - destruct (lex_step st c) as [[st' out]| |]; simpl; [|reflexivity..].
    rewrite (IH st' (toks ++ out)), (IH st' out).
    destruct (lex_run st' [] s) as [[st'' out']| |]; simpl; [|reflexivity..].
    now rewrite app_assoc.
Qed.

Lemma lex_run_app st toks s1 s2 :
  lex_run st toks (s1 +:+ s2) =
  let! r := lex_run st toks s1 in lex_run (fst r) (snd r) s2.
Proof.
  revert st toks. induction s1 as [|c s1 IH]; intros st toks.
  - reflexivity.
  - rewrite append_cons. simpl.
    destruct (lex_step st c) as [[st' out]| |]; simpl; [|reflexivity..].
    apply IH.
Qed.

(** Scanning a piece of text that takes the scanner from [st] to [st']
    and produces [out]. *)
Lemma lex_run_piece st st' out toks s rest :
  lex_run st [] s = Ok (st', out) ->
  lex_run st toks (s +:+ rest) = lex_run st' (toks ++ out) rest.
Proof.
  intros H. rewrite lex_run_app, lex_run_toks, H. reflexivity.
Qed.

(** One character of a string literal, as [escape_char] writes it. *)
Lemma lex_escape_char acc c :
  lex_run (LString acc) [] (escape_char c) = Ok (LString (snoc acc c), []).
Proof.
  destruct c as [[] [] [] [] [] [] [] []]; reflexivity.
Qed.

Lemma lex_escape s : forall acc,
  lex_run (LString acc) [] (escape s) = Ok (LString (acc +:+ s), []).
Proof.
  induction s as [|c s IH]; intros acc; simpl.
  - now rewrite append_nil_r.
  - rewrite (lex_run_piece _ _ _ _ _ _ (lex_escape_char acc c)). simpl.
    rewrite IH. unfold snoc. now rewrite append_assoc.
Qed.

Lemma lex_quote s toks rest :
  lex_run LDefault toks (quote s +:+ rest) =
  lex_run LDefault (toks ++ [TString s]) rest.
Proof.
  unfold quote. rewrite append_cons. simpl. rewrite app_nil_r.
  rewrite append_assoc.
  rewrite (lex_run_piece _ _ _ _ _ _ (lex_escape s EmptyString)).
  rewrite append_cons, append_nil_l. simpl. now rewrite app_nil_r.
Qed.

End Scanner.

Section Numbers.

Import JSON.

Lemma lex_digit neg n c k s :
  digit_of c = Some k ->
  lex_run (LDigits neg n) [] (String c s) = lex_run (LDigits neg (10 * n + k)) [] s.
Proof. intros H. rewrite lex_run_cons. unfold lex_step. now rewrite H. Qed.

(** The digits after the first one. *)
Lemma lex_digits d : forall neg q,
  lex_run (LDigits neg (Z.pos q)) [] (NilEmpty.string_of_uint d) =
  Ok (LDigits neg (Z.pos (Pos.of_uint_acc d q)), []).
Proof.
  induction d as [|d IH|d IH|d IH|d IH|d IH|d IH|d IH|d IH|d IH|d IH];
    intros neg q; [reflexivity|..];
    cbn [NilEmpty.string_of_uint Pos.of_uint_acc];
    (erewrite lex_digit by (vm_compute; reflexivity));
    rewrite <- IH; do 2 f_equal; lia.
Qed.

Lemma nzhead_head d : match nzhead d with D0 _ => False | _ => True end.
Proof. induction d; simpl; auto. Qed.

(** The decimal digits of a positive number do not start with a zero. *)
Lemma to_uint_head p :
  match Pos.to_uint p with Nil | D0 _ => False | _ => True end.
Proof.
  pose proof (DecimalPos.Unsigned.to_of (Pos.to_uint p)) as H.
  rewrite DecimalPos.Unsigned.of_to in H. simpl in H.
  pose proof (DecimalPos.Unsigned.to_uint_nonzero p) as Hnz.
  pose proof (DecimalPos.Unsigned.to_uint_nonnil p) as Hnn.
  destruct (Pos.to_uint p) as [|d|d|d|d|d|d|d|d|d|d] eqn:E; auto.
  rewrite DecimalFacts.unorm_D0 in H. unfold unorm in H.
  pose proof (nzhead_head d) as Hh.
  destruct (nzhead d) eqn:En;
    [exact (Hnz H) | contradiction | discriminate H ..].
Qed.

Lemma lex_positive p (neg : bool) :
  lex_run (if neg then LMinus else LDefault) []
          (NilEmpty.string_of_uint (Pos.to_uint p)) =
  Ok (LDigits neg (Z.pos p), []).
Proof.
  pose proof (to_uint_head p) as Hh.
  pose proof (DecimalPos.Unsigned.of_to p) as Hp.
  destruct (Pos.to_uint p) as [|d|d|d|d|d|d|d|d|d|d]; try contradiction;
    cbn [NilEmpty.string_of_uint];
    (destruct neg; scan_char; cbn [app];
     rewrite lex_digits; simpl in Hp; injection Hp as ->; reflexivity).
Qed.

(** An integer followed by a comma. *)
Lemma lex_number n toks rest :
  lex_run LDefault toks (number_to_string n +:+ String "," rest) =
  lex_run LDefault (toks ++ [TNumber n; TComma]) rest.
Proof.
  unfold number_to_string.
  destruct n as [|p|p]; cbn [Z.to_int NilEmpty.string_of_int].
  - rewrite (lex_run_piece LDefault (LZero false) [] toks); [|reflexivity].
    rewrite app_nil_r. reflexivity.
  - rewrite (lex_run_piece _ _ _ _ _ _ (lex_positive p false)).
    rewrite app_nil_r. reflexivity.
  - rewrite append_cons. scan_char.
    rewrite (lex_run_piece _ _ _ _ _ _ (lex_positive p true)).
    rewrite !app_nil_r. reflexivity.
Qed.

End Numbers.

Section RoundTrip.

Import JSON.

Local Ltac norm := rewrite ?append_assoc, ?append_cons, ?append_nil_l.

Lemma stringify_encode t :
  stringify (encode t) =
  "{" +:+ quote "id" +:+ ":" +:+ number_to_string (id t) +:+ "," +:+
  quote "text" +:+ ":" +:+ quote (text t) +:+ "," +:+
  quote "done" +:+ ":" +:+ (if done t then "true" else "false") +:+ "}".
Proof.
  unfold encode. cbn [stringify map join fst snd].
  rewrite !append_assoc. destruct (done t); reflexivity.
Qed.

Lemma lex_todo t toks rest :
  lex_run LDefault toks (stringify (encode t) +:+ rest) =
  lex_run LDefault (toks ++ todo_tokens t) rest.
Proof.
  rewrite stringify_encode. norm. scan_char.
  rewrite lex_quote. norm. scan_char.
  rewrite lex_number, lex_quote. norm. scan_char.
  rewrite lex_quote. norm. scan_char.
  rewrite lex_quote. norm. scan_char.
  unfold todo_tokens.
  destruct (done t); norm; repeat scan_char;
    rewrite <- !app_assoc; reflexivity.
Qed.

Lemma stringify_encode_todos l :
  stringify (encode_todos l) =
  "[" +:+ join "," (map (fun t => stringify (encode t)) l) +:+ "]".
Proof.
  unfold encode_todos. cbn [stringify]. now rewrite map_map.
Qed.

Lemma lex_join l : forall toks rest,
  lex_run LDefault toks
    (join "," (map (fun t => stringify (encode t)) l) +:+ rest) =
  lex_run LDefault (toks ++ todos_tokens l) rest.
Proof.
  induction l as [|t l IH]; intros toks rest.
  - cbn [map join todos_tokens]. now rewrite append_nil_l, app_nil_r.
  - destruct l as [|t' l].
    + cbn [map join todos_tokens]. apply lex_todo.
    + change (join "," (map (fun t => stringify (encode t)) (t :: t' :: l)))
        with (stringify (encode t) +:+ "," +:+
              join "," (map (fun t => stringify (encode t)) (t' :: l))).
      norm. rewrite lex_todo. scan_char. rewrite IH.
      change (todos_tokens (t :: t' :: l))
        with (todo_tokens t ++ TComma :: todos_tokens (t' :: l)).
      f_equal. rewrite <- !app_assoc. reflexivity.
Qed.

Lemma tokenize_todos l :
  tokenize (stringify (encode_todos l)) =
  Ok (TLBracket :: todos_tokens l ++ [TRBracket]).
Proof.
  unfold tokenize. rewrite stringify_encode_todos. norm. scan_char.
  rewrite lex_join. scan_char. cbn [lex_run bind lex_end fst snd].
  rewrite <- !app_assoc. reflexivity.
Qed.

Lemma parse_run_app st toks1 toks2 :
  parse_run st (toks1 ++ toks2) =
  let! st' := parse_run st toks1 in parse_run st' toks2.
Proof.
  revert st. induction toks1 as [|tok toks1 IH]; intros st; simpl.
  - reflexivity.
  - destruct (parse_step st tok); simpl; auto.
Qed.

Lemma parse_todo t stack :
  parse_run (PValue stack) (todo_tokens t) = Ok (put (encode t) stack).
Proof. destruct t as [i s [|]]; reflexivity. Qed.

Lemma parse_elements l : forall t elems stack,
  parse_run (PValue (InArr elems :: stack)) (todos_tokens (t :: l)) =
  Ok (PArrSep (elems ++ map encode (t :: l)) stack).
Proof.
  induction l as [|t' l IH]; intros t elems stack.
  - cbn [todos_tokens]. apply parse_todo.
  - change (todos_tokens (t :: t' :: l))
      with (todo_tokens t ++ TComma :: todos_tokens (t' :: l)).
    rewrite parse_run_app, parse_todo.
    cbn [bind put parse_run parse_step]. rewrite IH.
    cbn [map]. now rewrite <- app_assoc.
Qed.

Lemma todos_tokens_head t l :
  exists toks, todos_tokens (t :: l) = TLBrace :: toks.
Proof. destruct l; eexists; reflexivity. Qed.

(** What JSON.stringify writes for a well-typed list, JSON.parse reads
    back as the same list. *)
Lemma parse_stringify_todos l :
  parse (stringify (encode_todos l)) = Ok (encode_todos l).
Proof.
  unfold parse. rewrite tokenize_todos. cbn [bind].
  destruct l as [|t l]; [reflexivity|].
  assert (Hopen : parse_run (PValue []) (TLBracket :: todos_tokens (t :: l) ++ [TRBracket])
                  = parse_run (PValue [InArr []]) (todos_tokens (t :: l) ++ [TRBracket])).
  { destruct (todos_tokens_head t l) as [toks ->]. reflexivity. }
  rewrite Hopen, parse_run_app, parse_elements. reflexivity.
Qed.

Lemma encode_inj t t' : encode t = encode t' -> t = t'.
Proof.
  destruct t, t'. unfold encode; simpl. intros H. injection H as -> -> ->.
  reflexivity.
Qed.

Lemma encode_todos_inj l l' : encode_todos l = encode_todos l' -> l = l'.
Proof.
  unfold encode_todos. intros H. injection H as H. revert l' H.
  induction l as [|t l IH]; intros [|t' l'] H; try discriminate; [reflexivity|].
  cbn [map] in H.
  remember (encode t) as v eqn:Ev. remember (encode t') as v' eqn:Ev'.
  injection H as Ht Hl. subst v v'.
  f_equal; [now apply encode_inj | now apply IH].
Qed.

End RoundTrip.

(** * Persistence *)

Section Startup.

Import JSON.

Lemma stringify_todos_nonempty l : stringify (encode_todos l) <> EmptyString.
Proof. rewrite stringify_encode_todos. discriminate. Qed.

Lemma truthy_Some data : data <> EmptyString -> App.truthy (Some data) = true.
Proof. destruct data; [congruence | reflexivity]. Qed.

Lemma initial_todos_present w data :
  localStorage w !! "todos" = Some data -> data <> EmptyString ->
  fst (App.initial_todos w) = parse data.
Proof.
  intros Hslot Hne. unfold App.initial_todos, getItem.
  rewrite Hslot, (truthy_Some data Hne). reflexivity.
Qed.

Lemma initial_todos_calls w :
  calls (snd (App.initial_todos w)) = calls w ++ [GetItem "todos"] /\
  localStorage (snd (App.initial_todos w)) = localStorage w.
Proof.
  unfold App.initial_todos, getItem.
  destruct (localStorage w !! "todos") as [[|c data]|]; split; reflexivity.
Qed.

(** The effect makes one call, a write of the key, and no read. *)
Lemma persist_calls st w :
  calls (App.persist st w) = calls w ++ [SetItem "todos" (stringify (App.todos st))] /\
  localStorage (App.persist st w) !! "todos" = Some (stringify (App.todos st)).
Proof. split; [reflexivity | apply lookup_insert_eq]. Qed.

End Startup.

(** C7, as stated, fails: with the empty string in the slot the key is
    present and its value is not JSON, yet the initialiser does not parse
    it and returns the empty list. *)
Lemma empty_slot_is_not_parsed :
  localStorage (slot_with EmptyString) !! "todos" = Some EmptyString /\
  JSON.parse EmptyString = Throw SyntaxError /\
  fst (App.initial_todos (slot_with EmptyString)) = Ok (VArr []) /\
  ~ (forall data,
       localStorage (slot_with EmptyString) !! "todos" = Some data ->
       fst (App.initial_todos (slot_with EmptyString)) = JSON.parse data).
Proof.
  assert (Hslot : localStorage (slot_with EmptyString) !! "todos" = Some EmptyString)
    by apply lookup_singleton_eq.
  assert (Hinit : fst (App.initial_todos (slot_with EmptyString)) = Ok (VArr [])).
  { unfold App.initial_todos, getItem. now rewrite Hslot. }
  refine (conj Hslot (conj eq_refl (conj Hinit _))).
  intros H. specialize (H EmptyString Hslot). rewrite Hinit in H. discriminate H.
Qed.

(** C7 (amended).  The initialiser makes one call to the storage, a read of
    the key todos, and leaves the storage as it was.  Without the key, or
    with the empty string under it, the list starts empty.  Any other text
    under the key is handed to JSON.parse and the outcome is the outcome of
    JSON.parse: the text of a list gives that list, and an exception thrown
    by JSON.parse is thrown by the initialiser. *)
Theorem initial_todos_reads_the_slot_once (w : world) :
  calls (snd (App.initial_todos w)) = calls w ++ [GetItem "todos"] /\
  localStorage (snd (App.initial_todos w)) = localStorage w /\
  (localStorage w !! "todos" = None ->
     fst (App.initial_todos w) = Ok (VArr [])) /\
  (localStorage w !! "todos" = Some EmptyString ->
     fst (App.initial_todos w) = Ok (VArr [])) /\
  (forall data, localStorage w !! "todos" = Some data -> data <> EmptyString ->
     fst (App.initial_todos w) = JSON.parse data) /\
  (forall l, localStorage w !! "todos" = Some (JSON.stringify (encode_todos l)) ->
     fst (App.initial_todos w) = Ok (encode_todos l)) /\
  (forall data e, localStorage w !! "todos" = Some data -> data <> EmptyString ->
     JSON.parse data = Throw e -> fst (App.initial_todos w) = Throw e).
Proof.
  destruct (initial_todos_calls w) as [Hcalls Hstore].
  refine (conj Hcalls (conj Hstore (conj _ (conj _ (conj _ (conj _ _)))))).
  - intros H. unfold App.initial_todos, getItem. now rewrite H.
  - intros H. unfold App.initial_todos, getItem. now rewrite H.
  - apply initial_todos_present.
  - intros l H.
    rewrite (initial_todos_present w _ H (stringify_todos_nonempty l)).
    apply parse_stringify_todos.
  - intros data e H Hne Hthrow.
    now rewrite (initial_todos_present w data H Hne).
Qed.

Lemma initial_todos_reads_the_slot_once_witness :
  fst (App.initial_todos (slot_with (sq "[{'id':5,'text':'x','done':true}]")))
    = Ok (encode_todos [mkTodo 5 "x" true]) /\
  fst (App.initial_todos (slot_with "[1,")) = Throw SyntaxError /\
  fst (App.initial_todos {| localStorage := ∅; calls := [] |}) = Ok (VArr []).
Proof.
  pose proof (initial_todos_reads_the_slot_once
                (slot_with (sq "[{'id':5,'text':'x','done':true}]")))
    as (_ & _ & _ & _ & _ & Hlist & _).
  pose proof (initial_todos_reads_the_slot_once (slot_with "[1,"))
    as (_ & _ & _ & _ & _ & _ & Hthrow).
  pose proof (initial_todos_reads_the_slot_once {| localStorage := ∅; calls := [] |})
    as (_ & _ & Habsent & _).
  split; [|split].
  - apply (Hlist [mkTodo 5 "x" true]). apply lookup_singleton_eq.
  - apply (Hthrow "[1,"); [apply lookup_singleton_eq | discriminate | reflexivity].
  - apply Habsent. apply lookup_empty.
Defined.

(** C8.  For every list, the empty one included, JSON.parse of the text
    JSON.stringify writes is the list itself, item by item and in order; so
    is the list the initialiser reads from a slot the effect has written. *)
Theorem stringify_parse_round_trip (l : list Todo) :
  JSON.parse (JSON.stringify (encode_todos l)) = Ok (encode_todos l) /\
  (forall draft w,
     fst (App.initial_todos
            (App.persist {| App.todos := encode_todos l; App.inputValue := draft |} w))
     = Ok (encode_todos l)).
Proof.
  split; [apply parse_stringify_todos|].
  intros draft w.
  rewrite (initial_todos_present _ (JSON.stringify (encode_todos l))).
  - apply parse_stringify_todos.
  - unfold App.persist, setItem. simpl. apply lookup_insert_eq.
  - apply stringify_todos_nonempty.
Qed.

(** * The handlers on well-typed state *)

Section Properties.

Lemma lookup_set_prop_eq k v props :
  lookup_prop k (set_prop k v props) = Some v.
Proof.
  induction props as [|[k' v'] props IH]; simpl.
  - now rewrite String.eqb_refl.
  - destruct (String.eqb_spec k' k) as [->|N]; simpl.
    + now rewrite String.eqb_refl.
    + apply String.eqb_neq in N. now rewrite N.
Qed.

Lemma lookup_set_prop_ne k k' v props :
  k <> k' -> lookup_prop k' (set_prop k v props) = lookup_prop k' props.
Proof.
  intros Hne. induction props as [|[k0 v0] props IH]; simpl.
  - apply String.eqb_neq in Hne. now rewrite Hne.
  - destruct (String.eqb_spec k0 k) as [->|N]; simpl.
    + apply String.eqb_neq in Hne. now rewrite Hne.
    + now rewrite IH.
Qed.

Lemma is_todo_inv v :
  is_todo v = true ->
  exists props n s b,
    v = VObj props /\ lookup_prop "id" props = Some (VNum n) /\
    lookup_prop "text" props = Some (VStr s) /\
    lookup_prop "done" props = Some (VBool b).
Proof.
  destruct v as [| | | | |props]; try discriminate. unfold is_todo.
  destruct (lookup_prop "id" props) as [[| |n| | |]|] eqn:Hid; try discriminate.
  destruct (lookup_prop "text" props) as [[| | |s| |]|] eqn:Htext;
    try (destruct (lookup_prop "done" props) as [[]|]; discriminate).
  destruct (lookup_prop "done" props) as [[|b| | | |]|] eqn:Hdone; try discriminate.
  intros _. now exists props, n, s, b.
Qed.

Lemma is_todo_encode t : is_todo (encode t) = true.
Proof. reflexivity. Qed.

Lemma is_todos_encode l : is_todos (encode_todos l) = true.
Proof.
  unfold is_todos, encode_todos. apply forallb_forall.
  intros v Hv. apply in_map_iff in Hv as (t & <- & _). apply is_todo_encode.
Qed.

End Properties.

Section Handlers.

Variable i : Z.

Lemma flip_matching_typed v :
  is_todo v = true ->
  exists v', App.flip_matching i v = Ok v' /\ is_todo v' = true.
Proof.
  intros Hv. pose proof Hv as Hv0.
  apply is_todo_inv in Hv as (props & n & s & b & -> & Hid & Htext & Hdone).
  unfold App.flip_matching. cbn [App.get_field bind]. rewrite Hid.
  cbn [App.is_number]. destruct (n =? i).
  - rewrite Hdone. cbn [bind App.to_boolean App.spread_done].
    eexists; split; [reflexivity|]. cbn [is_todo].
    rewrite lookup_set_prop_eq, !lookup_set_prop_ne, Hid, Htext by discriminate.
    reflexivity.
  - eexists; split; [reflexivity | exact Hv0].
Qed.

Lemma keep_others_typed v :
  is_todo v = true -> exists b, App.keep_others i v = Ok b.
Proof.
  intros Hv. apply is_todo_inv in Hv as (props & n & s & b & -> & Hid & _).
  unfold App.keep_others. cbn [App.get_field bind]. rewrite Hid. eauto.
Qed.

Lemma map_result_typed elems :
  forallb is_todo elems = true ->
  exists elems', App.map_result (App.flip_matching i) elems = Ok elems' /\
                 forallb is_todo elems' = true.
Proof.
  induction elems as [|v elems IH]; intros H; cbn [App.map_result].
  - now exists [].
  - cbn [forallb] in H. apply andb_true_iff in H as [Hv Hrest].
    destruct (flip_matching_typed v Hv) as (v' & -> & Hv').
    destruct (IH Hrest) as (elems' & -> & Helems').
    exists (v' :: elems'). cbn [bind forallb]. now rewrite Hv', Helems'.
Qed.

Lemma filter_result_typed elems :
  forallb is_todo elems = true ->
  exists elems', App.filter_result (App.keep_others i) elems = Ok elems' /\
                 forallb is_todo elems' = true.
Proof.
  induction elems as [|v elems IH]; intros H; cbn [App.filter_result].
  - now exists [].
  - cbn [forallb] in H. apply andb_true_iff in H as [Hv Hrest].
    destruct (keep_others_typed v Hv) as (b & ->).
    destruct (IH Hrest) as (elems' & -> & Helems').
    cbn [bind]. destruct b; eexists; (split; [reflexivity|]);
      cbn [forallb]; now rewrite ?Hv, Helems'.
Qed.

Lemma flip_matching_encode t :
  App.flip_matching i (encode t) = Ok (encode (if id t =? i then negate_done t else t)).
Proof.
  destruct t as [n s d]. unfold App.flip_matching. cbn. destruct (n =? i); reflexivity.
Qed.

Lemma map_result_toggle l :
  App.map_result (App.flip_matching i) (map encode l) = Ok (map encode (toggle l i)).
Proof.
  induction l as [|t l IH]; [reflexivity|].
  cbn [map App.map_result toggle]. rewrite flip_matching_encode. cbn [bind].
  unfold toggle in IH. rewrite IH. reflexivity.
Qed.

Lemma filter_result_remove l :
  App.filter_result (App.keep_others i) (map encode l) = Ok (map encode (remove l i)).
Proof.
  induction l as [|t l IH]; [reflexivity|].
  cbn [map App.filter_result remove List.filter].
  unfold remove in IH. rewrite IH.
  destruct t as [n s d]. unfold App.keep_others. cbn. destruct (n =? i); reflexivity.
Qed.

Lemma onClick_add_typed st :
  is_todos (App.todos st) = true ->
  exists st', App.onClick_add st = Ok st' /\ is_todos (App.todos st') = true.
Proof.
  unfold App.onClick_add. destruct (App.todos st) as [| | | |elems|]; try discriminate.
  cbn [is_todos]. intros H. eexists; split; [reflexivity|].
  cbn [App.todos is_todos]. rewrite forallb_app, H. reflexivity.
Qed.

Lemma onChange_checkbox_typed st :
  is_todos (App.todos st) = true ->
  exists st', App.onChange_checkbox i st = Ok st' /\ is_todos (App.todos st') = true.
Proof.
  unfold App.onChange_checkbox, App.array_map.
  destruct (App.todos st) as [| | | |elems|]; try discriminate.
  cbn [is_todos]. intros H.
  destruct (map_result_typed elems H) as (elems' & E & H').
  rewrite E. cbn [bind].
  eexists; split; [reflexivity | exact H'].
Qed.

Lemma onClick_delete_typed st :
  is_todos (App.todos st) = true ->
  exists st', App.onClick_delete i st = Ok st' /\ is_todos (App.todos st') = true.
Proof.
  unfold App.onClick_delete, App.array_filter.
  destruct (App.todos st) as [| | | |elems|]; try discriminate.
  cbn [is_todos]. intros H.
  destruct (filter_result_typed elems H) as (elems' & E & H').
  rewrite E. cbn [bind].
  eexists; split; [reflexivity | exact H'].
Qed.

Lemma handlers_refine st l :
  App.todos st = encode_todos l ->
  App.onClick_add st
    = Ok {| App.todos := encode_todos (add l (App.inputValue st));
            App.inputValue := EmptyString |} /\
  App.onChange_checkbox i st
    = Ok {| App.todos := encode_todos (toggle l i);
            App.inputValue := App.inputValue st |} /\
  App.onClick_delete i st
    = Ok {| App.todos := encode_todos (remove l i);
            App.inputValue := App.inputValue st |}.
Proof.
  intros E. split; [|split].
  - unfold App.onClick_add. rewrite E. unfold encode_todos, add.
    rewrite map_app, length_map. reflexivity.
  - unfold App.onChange_checkbox, App.array_map. rewrite E. unfold encode_todos.
    rewrite map_result_toggle. reflexivity.
  - unfold App.onClick_delete, App.array_filter. rewrite E. unfold encode_todos.
    rewrite filter_result_remove. reflexivity.
Qed.

End Handlers.

(** C9.  On a well-typed state none of the three handlers throws: each
    completes and stores a well-typed list.  When the list is the run-time
    form of [l], the list stored is the run-time form of [add l],
    [toggle l] or [remove l]. *)
Theorem handlers_never_throw (st : App.state) (i : Z) :
  is_todos (App.todos st) = true ->
  (exists st', App.onClick_add st = Ok st' /\ is_todos (App.todos st') = true) /\
  (exists st', App.onChange_checkbox i st = Ok st' /\ is_todos (App.todos st') = true) /\
  (exists st', App.onClick_delete i st = Ok st' /\ is_todos (App.todos st') = true) /\
  (forall l, App.todos st = encode_todos l ->
     App.onClick_add st
       = Ok {| App.todos := encode_todos (add l (App.inputValue st));
               App.inputValue := EmptyString |} /\
     App.onChange_checkbox i st
       = Ok {| App.todos := encode_todos (toggle l i);
               App.inputValue := App.inputValue st |} /\
     App.onClick_delete i st
       = Ok {| App.todos := encode_todos (remove l i);
               App.inputValue := App.inputValue st |}).
Proof.
  intros Hty.
  refine (conj (onClick_add_typed st Hty)
         (conj (onChange_checkbox_typed i st Hty)
         (conj (onClick_delete_typed i st Hty) _))).
  intros l. apply handlers_refine.
Qed.

Lemma handlers_never_throw_witness :
  App.onChange_checkbox 1
    {| App.todos := encode_todos [mkTodo 1 "buy milk" false];
       App.inputValue := "eggs" |}
  = Ok {| App.todos := encode_todos [mkTodo 1 "buy milk" true];
          App.inputValue := "eggs" |} /\
  App.onClick_add
    {| App.todos := encode_todos [mkTodo 1 "buy milk" false];
       App.inputValue := "eggs" |}
  = Ok {| App.todos := encode_todos [mkTodo 1 "buy milk" false; mkTodo 2 "eggs" false];
          App.inputValue := EmptyString |}.
Proof.
  assert (Hty : is_todos (encode_todos [mkTodo 1 "buy milk" false]) = true)
    by reflexivity.
  pose proof (handlers_never_throw
                {| App.todos := encode_todos [mkTodo 1 "buy milk" false];
                   App.inputValue := "eggs" |} 1 Hty)
    as (_ & _ & _ & Hrefine).
  destruct (Hrefine [mkTodo 1 "buy milk" false] eq_refl) as (Hadd & Htoggle & _).
  split; [exact Htoggle | exact Hadd].
Defined.

(** * Examples *)

(** The first scenario of section 8. *)
Example scenario_buy_milk :
  add [] "buy milk" = [mkTodo 1 "buy milk" false] /\
  toggle (add [] "buy milk") 1 = [mkTodo 1 "buy milk" true] /\
  remove (toggle (add [] "buy milk") 1) 1 = [].
Proof. repeat split. Qed.

(** The text the effect writes. *)
Example stringify_sample :
  JSON.stringify (encode_todos [mkTodo 5 "x" true; mkTodo 6 (sq "say 'hi'") false])
  = sq "[{'id':5,'text':'x','done':true},{'id':6,'text':'say \'hi\'','done':false}]".
Proof. reflexivity. Qed.

(** The cast of line 41 lets any JSON value through: what is not a list
    makes the handlers throw. *)
Example ill_typed_state_throws :
  JSON.parse "null" = Ok VNull /\
  App.onChange_checkbox 1 {| App.todos := VNull; App.inputValue := EmptyString |}
    = Throw TypeError /\
  App.onClick_add {| App.todos := VNull; App.inputValue := EmptyString |}
    = Throw TypeError /\
  App.onClick_delete 1 {| App.todos := VArr [VNull]; App.inputValue := EmptyString |}
    = Throw TypeError.
Proof. repeat split. Qed.


(** * More on the three transitions *)

Section Algebra.

Implicit Types (l : list Todo) (i j : Z) (x : Todo).

Lemma ids_toggle l i : ids (toggle l i) = ids l.
Proof.
  unfold ids, toggle. rewrite map_map. apply map_ext.
  intros x. now destruct (id x =? i).
Qed.

Lemma texts_toggle l i : map text (toggle l i) = map text l.
Proof.
  unfold toggle. rewrite map_map. apply map_ext.
  intros x. now destruct (id x =? i).
Qed.

Lemma ids_remove l i :
  ids (remove l i) = List.filter (fun n => negb (n =? i)) (ids l).
Proof. unfold ids, remove. now rewrite List.filter_map_swap. Qed.

Lemma NoDup_snoc {A : Type} (l : list A) (a : A) :
  List.NoDup (l ++ [a]) <-> List.NoDup l /\ ~ In a l.
Proof.
  split.
  - intros H. apply List.NoDup_remove in H. now rewrite app_nil_r in H.
  - intros [Hl Ha]. apply List.NoDup_app; [exact Hl | repeat constructor; auto |].
    intros b Hb [<-|[]]. now apply Ha.
Qed.

Lemma nth_error_middle l k x :
  nth_error l k = Some x ->
  l = firstn k l ++ x :: skipn (S k) l.
Proof. intros H. symmetry. now apply List.firstn_skipn_middle. Qed.

Lemma unique_elsewhere l1 x l2 :
  List.NoDup (ids (l1 ++ x :: l2)) ->
  forall y, In y (l1 ++ l2) -> id y <> id x.
Proof.
  unfold ids. rewrite map_app. cbn [map]. intros H y Hy E.
  apply List.NoDup_remove_2 in H. apply H. rewrite <- map_app, <- E.
  now apply in_map.
Qed.

End Algebra.

(** X1.  Whatever the identifier, [toggle] changes no identifier and no
    text, and keeps the items in place. *)
Theorem toggle_keeps_ids_and_texts (l : list Todo) (i : Z) :
  ids (toggle l i) = ids l /\ map text (toggle l i) = map text l.
Proof. split; [apply ids_toggle | apply texts_toggle]. Qed.

(** X2.  A list whose identifiers are pairwise distinct stays so under
    [toggle] and under [remove]. *)
Theorem toggle_and_remove_keep_ids_distinct (l : list Todo) (i : Z) :
  List.NoDup (ids l) ->
  List.NoDup (ids (toggle l i)) /\ List.NoDup (ids (remove l i)).
Proof.
  intros H. split.
  - now rewrite ids_toggle.
  - rewrite ids_remove. now apply List.NoDup_filter.
Qed.

Lemma toggle_and_remove_keep_ids_distinct_witness :
  List.NoDup (ids (toggle [mkTodo 1 "a" false; mkTodo 2 "b" false] 2)) /\
  List.NoDup (ids (remove [mkTodo 1 "a" false; mkTodo 2 "b" false] 2)).
Proof.
  apply (toggle_and_remove_keep_ids_distinct [mkTodo 1 "a" false; mkTodo 2 "b" false] 2).
  repeat constructor; simpl; intuition lia.
Defined.

(** X3.  [add] keeps the identifiers pairwise distinct exactly when they
    were and no item already carries the length of the list plus one. *)
Theorem add_keeps_ids_distinct_iff (l : list Todo) (t : string) :
  List.NoDup (ids (add l t)) <->
  List.NoDup (ids l) /\ ~ In (Z.of_nat (length l) + 1) (ids l).
Proof. rewrite ids_add. apply NoDup_snoc. Qed.

(** X4.  Removing an identifier twice is removing it once, and two removals
    can be done in either order. *)
Theorem remove_idempotent_and_commutes (l : list Todo) (i j : Z) :
  remove (remove l i) i = remove l i /\
  remove (remove l i) j = remove (remove l j) i.
Proof.
  split.
  - apply remove_absent. intros x Hx. now apply remove_In in Hx.
  - induction l as [|x l IH]; [reflexivity|].
    cbn [remove List.filter]. fold (remove l i) (remove l j).
    destruct (id x =? i) eqn:Ei, (id x =? j) eqn:Ej;
      cbn [negb List.filter]; rewrite ?Ei, ?Ej; cbn [negb];
      fold (remove (remove l i) j) (remove (remove l j) i); now rewrite IH.
Qed.

(** X5.  Two toggles can be done in either order, and so can a toggle and
    a removal. *)
Theorem toggle_commutes (l : list Todo) (i j : Z) :
  toggle (toggle l i) j = toggle (toggle l j) i /\
  remove (toggle l i) j = toggle (remove l j) i.
Proof.
  split.
  - unfold toggle. rewrite !map_map. apply map_ext. intros x.
    destruct (id x =? i) eqn:Ei, (id x =? j) eqn:Ej;
      rewrite ?id_negate_done, ?Ei, ?Ej; reflexivity.
  - induction l as [|x l IH]; [reflexivity|].
    cbn [toggle map remove List.filter]. fold (toggle l i) (remove l j).
    fold (remove (toggle l i) j). rewrite IH.
    destruct (id x =? i) eqn:Ei, (id x =? j) eqn:Ej;
      rewrite ?id_negate_done, ?Ej; cbn [negb map toggle]; rewrite ?Ei; reflexivity.
Qed.

(** * The rows and their buttons *)

Section Rows.

Implicit Types (l : list Todo) (k : nat) (x : Todo).

Lemma nth_error_render_rows l k :
  nth_error (View.render_rows l) k =
  option_map (fun item => make_row (id item) (text item) (done item)) (nth_error l k).
Proof. unfold View.render_rows. apply nth_error_map. Qed.

Lemma keys_render_rows l : map key (View.render_rows l) = ids l.
Proof. unfold View.render_rows, ids. rewrite map_map. reflexivity. Qed.

Lemma remove_shrinks l x : In x l -> (length (remove l (id x)) < length l)%nat.
Proof.
  intros Hx. pose proof (remove_length l (id x)) as Hlen.
  assert (0 < count_id (id x) l)%nat; [|lia].
  unfold count_id. induction l as [|y l IH]; [contradiction|].
  cbn [List.filter]. destruct Hx as [->|Hx].
  - rewrite Z.eqb_refl. cbn [length]. lia.
  - destruct (id y =? id x); cbn [length]; [lia|].
    apply IH; [exact Hx|]. apply remove_length.
Qed.

End Rows.

(** X6.  The checkbox of a row negates [done] of the item of that row; when
    the identifiers are pairwise distinct it changes nothing else. *)
Theorem click_checkbox_negates_the_row (l : list Todo) (k : nat) (x : Todo) :
  nth_error l k = Some x ->
  nth_error (View.click_checkbox l k) k = Some (negate_done x) /\
  (List.NoDup (ids l) ->
   View.click_checkbox l k = firstn k l ++ negate_done x :: skipn (S k) l).
Proof.
  intros Hk. unfold View.click_checkbox. rewrite Hk. split.
  - rewrite (toggle_nth l (id x) k x Hk). now rewrite Z.eqb_refl.
  - intros Hnd. rewrite (nth_error_middle l k x Hk) at 1.
    apply toggle_single. apply unique_elsewhere.
    now rewrite <- (nth_error_middle l k x Hk).
Qed.

Lemma click_checkbox_negates_the_row_witness :
  View.click_checkbox [mkTodo 1 "a" false; mkTodo 2 "b" false; mkTodo 3 "c" true] 1
  = [mkTodo 1 "a" false] ++ negate_done (mkTodo 2 "b" false) :: [mkTodo 3 "c" true].
Proof.
  apply (click_checkbox_negates_the_row
           [mkTodo 1 "a" false; mkTodo 2 "b" false; mkTodo 3 "c" true] 1%nat
           (mkTodo 2 "b" false) eq_refl).
  repeat constructor; simpl; intuition lia.
Defined.

(** X7.  The delete button of a row removes the item of that row: the list
    gets shorter and holds no item with that identifier; when the
    identifiers are pairwise distinct every other item stays, in order. *)
Theorem click_delete_removes_the_row (l : list Todo) (k : nat) (x : Todo) :
  nth_error l k = Some x ->
  (length (View.click_delete l k) < length l)%nat /\
  (forall y, In y (View.click_delete l k) -> id y <> id x) /\
  (List.NoDup (ids l) ->
   View.click_delete l k = firstn k l ++ skipn (S k) l).
Proof.
  intros Hk. unfold View.click_delete. rewrite Hk. split; [|split].
  - apply remove_shrinks. now apply nth_error_In in Hk.
  - intros y Hy. now apply remove_In in Hy.
  - intros Hnd. rewrite (nth_error_middle l k x Hk) at 1.
    apply remove_single. apply unique_elsewhere.
    now rewrite <- (nth_error_middle l k x Hk).
Qed.

Lemma click_delete_removes_the_row_witness :
  View.click_delete [mkTodo 1 "a" false; mkTodo 2 "b" false; mkTodo 3 "c" true] 1
  = [mkTodo 1 "a" false] ++ [mkTodo 3 "c" true].
Proof.
  apply (click_delete_removes_the_row
           [mkTodo 1 "a" false; mkTodo 2 "b" false; mkTodo 3 "c" true] 1%nat
           (mkTodo 2 "b" false) eq_refl).
  repeat constructor; simpl; intuition lia.
Defined.

(** X8.  After a click on the checkbox of a row, that row is drawn with the
    same key and text, the checkbox the other way round and the text struck
    through when it was not, plain when it was. *)
Theorem click_checkbox_redraws_the_row (l : list Todo) (k : nat) (r : row) :
  nth_error (View.render_rows l) k = Some r ->
  nth_error (View.render_rows (View.click_checkbox l k)) k
  = Some (make_row (key r) (label r) (negb (checked r))) /\
  textDecoration r = (if checked r then "line-through" else "none").
Proof.
  rewrite !nth_error_render_rows. intros Hr.
  destruct (nth_error l k) as [x|] eqn:Hk; [|discriminate Hr].
  injection Hr as <-. unfold View.click_checkbox. rewrite Hk.
  rewrite (toggle_nth l (id x) k x Hk), Z.eqb_refl. split; reflexivity.
Qed.

Lemma click_checkbox_redraws_the_row_witness :
  nth_error (View.render_rows
               (View.click_checkbox [mkTodo 1 "a" false; mkTodo 2 "b" false] 1)) 1
  = Some (make_row 2 "b" true).
Proof.
  apply (click_checkbox_redraws_the_row
           [mkTodo 1 "a" false; mkTodo 2 "b" false] 1%nat (make_row 2 "b" false) eq_refl).
Defined.

(** * Lists reached from the empty list *)

Section Reachable.

Implicit Types (l : list Todo) (s : list Todo * string) (evs : list ui_event).

Lemma bounded_mono a b l : (a <= b)%nat -> Session.bounded a l -> Session.bounded b l.
Proof.
  intros Hab [Hlen Hids]. split; [lia|].
  eapply List.Forall_impl; [|exact Hids]. cbn beta. intros t Ht. lia.
Qed.

Lemma bounded_add a l t : Session.bounded a l -> Session.bounded (S a) (add l t).
Proof.
  intros [Hlen Hids]. split.
  - unfold add. rewrite length_app. cbn [length]. lia.
  - unfold add. apply List.Forall_app. split.
    + eapply List.Forall_impl; [|exact Hids]. cbn beta. intros x Hx. lia.
    + repeat constructor; cbn [id]; lia.
Qed.

Lemma bounded_toggle a l i : Session.bounded a l -> Session.bounded a (toggle l i).
Proof.
  intros [Hlen Hids]. split; [now rewrite toggle_length|].
  unfold toggle. apply List.Forall_map. eapply List.Forall_impl; [|exact Hids].
  cbn beta. intros x Hx. now destruct (id x =? i).
Qed.

Lemma bounded_remove a l i : Session.bounded a l -> Session.bounded a (remove l i).
Proof.
  intros [Hlen Hids]. split.
  - pose proof (remove_length l i). lia.
  - apply List.Forall_forall. intros x Hx. apply remove_In in Hx as [Hx _].
    now apply (proj1 (List.Forall_forall _ _) Hids).
Qed.

Lemma bounded_step a s ev :
  Session.bounded a (fst s) ->
  Session.bounded (a + Session.adds_in [ev]) (fst (Session.typed_step s ev)).
Proof.
  intros H. destruct ev as [data| |k|k]; cbn [Session.typed_step fst].
  - apply bounded_mono with a; [lia | exact H].
  - replace (a + Session.adds_in [ClickAdd])%nat with (S a) by (cbn; lia).
    now apply bounded_add.
  - apply bounded_mono with a; [lia|]. unfold View.click_checkbox.
    destruct (nth_error (fst s) k); [now apply bounded_toggle | exact H].
  - apply bounded_mono with a; [lia|]. unfold View.click_delete.
    destruct (nth_error (fst s) k); [now apply bounded_remove | exact H].
Qed.

Lemma adds_in_cons ev evs :
  Session.adds_in (ev :: evs) = (Session.adds_in [ev] + Session.adds_in evs)%nat.
Proof.
  unfold Session.adds_in. cbn [List.filter].
  destruct (Session.is_add ev); cbn [length]; lia.
Qed.

Lemma bounded_run evs : forall a s,
  Session.bounded a (fst s) ->
  Session.bounded (a + Session.adds_in evs) (fst (Session.typed_run evs s)).
Proof.
  induction evs as [|ev evs IH]; intros a s H.
  - cbn. now rewrite Nat.add_0_r.
  - rewrite adds_in_cons, Nat.add_assoc. cbn [Session.typed_run fold_left].
    apply IH. now apply bounded_step.
Qed.

(** Without a delete the identifiers are 1, 2, ..., n. *)
Lemma counting_step n s ev :
  Session.is_delete ev = false ->
  ids (fst s) = map Z.of_nat (seq 1 n) ->
  ids (fst (Session.typed_step s ev))
  = map Z.of_nat (seq 1 (n + Session.adds_in [ev])).
Proof.
  intros Hev H. destruct ev as [data| |k|k]; cbn [Session.typed_step fst];
    try discriminate Hev.
  - now rewrite Nat.add_0_r.
  - assert (Hlen : length (fst s) = n).
    { apply (f_equal (@length Z)) in H. unfold ids in H.
      now rewrite !length_map, length_seq in H. }
    rewrite ids_add, H, Hlen.
    replace (n + Session.adds_in [ClickAdd])%nat with (S n) by (cbn; lia).
    rewrite seq_S, map_app. cbn [map]. do 2 f_equal. lia.
  - rewrite Nat.add_0_r. unfold View.click_checkbox.
    destruct (nth_error (fst s) k); [now rewrite ids_toggle | exact H].
Qed.

Lemma counting_run evs : forall n s,
  forallb (fun ev => negb (Session.is_delete ev)) evs = true ->
  ids (fst s) = map Z.of_nat (seq 1 n) ->
  ids (fst (Session.typed_run evs s))
  = map Z.of_nat (seq 1 (n + Session.adds_in evs)).
Proof.
  induction evs as [|ev evs IH]; intros n s Hevs H.
  - cbn. now rewrite Nat.add_0_r.
  - cbn [forallb] in Hevs. apply andb_true_iff in Hevs as [Hev Hevs].
    apply negb_true_iff in Hev.
    rewrite adds_in_cons, Nat.add_assoc. cbn [Session.typed_run fold_left].
    apply IH; [exact Hevs|]. now apply counting_step.
Qed.

End Reachable.

(** X9.  Starting from the empty list, whatever is typed and clicked, the
    list has at most as many items as the add button was clicked, and every
    identifier lies between 1 and that number. *)
Theorem reachable_ids_are_bounded (evs : list ui_event) (draft : string) :
  (length (fst (Session.typed_run evs ([], draft))) <= Session.adds_in evs)%nat /\
  Forall (fun t => 1 <= id t <= Z.of_nat (Session.adds_in evs))
         (fst (Session.typed_run evs ([], draft))).
Proof.
  apply (bounded_run evs 0 ([], draft)).
  split; [cbn; lia | constructor].
Qed.

(** X10.  Starting from the empty list, as long as no delete button is
    clicked the identifiers are 1, 2, ..., n in this order, n the number of
    clicks on the add button; the keys of the rows are then pairwise
    distinct. *)
Theorem ids_count_up_without_delete (evs : list ui_event) (draft : string) :
  forallb (fun ev => negb (Session.is_delete ev)) evs = true ->
  ids (fst (Session.typed_run evs ([], draft)))
  = map Z.of_nat (seq 1 (Session.adds_in evs)) /\
  List.NoDup (map key (View.render_rows (fst (Session.typed_run evs ([], draft))))).
Proof.
  intros Hevs.
  assert (E : ids (fst (Session.typed_run evs ([], draft)))
              = map Z.of_nat (seq 1 (Session.adds_in evs))).
  { apply (counting_run evs 0 ([], draft) Hevs). reflexivity. }
  split; [exact E|]. rewrite keys_render_rows, E.
  apply Finite.Injective_map_NoDup; [intros a b; apply Nat2Z.inj | apply seq_NoDup].
Qed.

Lemma ids_count_up_without_delete_witness :
  ids (fst (Session.typed_run
              [Typing "a"; ClickAdd; ClickCheckbox 0; Typing "b"; ClickAdd]
              ([], EmptyString)))
  = [1; 2].
Proof.
  apply (ids_count_up_without_delete
           [Typing "a"; ClickAdd; ClickCheckbox 0; Typing "b"; ClickAdd] EmptyString).
  reflexivity.
Defined.


(** * A visit of the page *)

Section Visits.

Implicit Types (st : App.state) (w : world) (l : list Todo) (evs : list ui_event).

Lemma state_eta st : {| App.todos := App.todos st; App.inputValue := App.inputValue st |} = st.
Proof. now destruct st. Qed.

Lemma render_items_encode l :
  App.map_result Session.render_item (map encode l) = Ok (View.render_rows l).
Proof.
  induction l as [|x l IH]; [reflexivity|].
  cbn [map App.map_result View.render_rows]. unfold View.render_rows in IH.
  rewrite IH. reflexivity.
Qed.

Lemma render_encode st l :
  App.todos st = encode_todos l -> Session.render st = Ok (View.render_rows l).
Proof. intros E. unfold Session.render. rewrite E. apply render_items_encode. Qed.

Lemma commit_encode st w l :
  App.todos st = encode_todos l ->
  Session.commit (Ok st) w = (Ok st, App.persist st w).
Proof. intros E. unfold Session.commit. now rewrite (render_encode st l E). Qed.

(** What a step does to a well-typed state: the state after it, and
    whether the effect has run. *)
Lemma step_encode ev st w l :
  App.todos st = encode_todos l ->
  exists st',
    App.todos st' = encode_todos (fst (Session.typed_step (l, App.inputValue st) ev)) /\
    App.inputValue st' = snd (Session.typed_step (l, App.inputValue st) ev) /\
    (Session.step ev st w = (Ok st', w) /\ App.todos st' = App.todos st \/
     Session.step ev st w = (Ok st', App.persist st' w)).
Proof.
  intros E. destruct ev as [data| |k|k]; cbn [Session.step Session.typed_step fst snd].
  - eexists. split; [|split; [|left; split; reflexivity]]; [exact E | reflexivity].
  - destruct (handlers_refine 0 st l E) as (Hadd & _ & _). rewrite Hadd.
    eexists. split; [|split; [|right; now apply commit_encode with (add l (App.inputValue st))]];
      reflexivity.
  - unfold Session.on_row, View.click_checkbox.
    rewrite (render_encode st l E), nth_error_render_rows.
    destruct (nth_error l k) as [x|] eqn:Hk; cbn [option_map].
    + destruct (handlers_refine (id x) st l E) as (_ & Htoggle & _).
      cbn [key make_row]. rewrite Htoggle.
      eexists. split; [|split; [|right; now apply commit_encode with (toggle l (id x))]];
        reflexivity.
    + exists st. split; [exact E | split; [reflexivity | left; split; reflexivity]].
  - unfold Session.on_row, View.click_delete.
    rewrite (render_encode st l E), nth_error_render_rows.
    destruct (nth_error l k) as [x|] eqn:Hk; cbn [option_map].
    + destruct (handlers_refine (id x) st l E) as (_ & _ & Hdelete).
      cbn [key make_row]. rewrite Hdelete.
      eexists. split; [|split; [|right; now apply commit_encode with (remove l (id x))]];
        reflexivity.
    + exists st. split; [exact E | split; [reflexivity | left; split; reflexivity]].
Qed.

Lemma run_encode evs : forall st w l,
  App.todos st = encode_todos l ->
  exists st' w',
    Session.run evs st w = (Ok st', w') /\
    App.todos st' = encode_todos (fst (Session.typed_run evs (l, App.inputValue st))) /\
    App.inputValue st' = snd (Session.typed_run evs (l, App.inputValue st)) /\
    (in_sync st w -> in_sync st' w').
Proof.
  induction evs as [|ev evs IH]; intros st w l E.
  - exists st, w. cbn. auto.
  - destruct (step_encode ev st w l E) as (st1 & E1 & D1 & Hstep).
    cbn [Session.run Session.typed_run fold_left].
    assert (Hs : Session.typed_step (l, App.inputValue st) ev
                 = (fst (Session.typed_step (l, App.inputValue st) ev), App.inputValue st1)).
    { rewrite D1. now destruct (Session.typed_step (l, App.inputValue st) ev). }
    rewrite Hs.
    destruct Hstep as [[-> Esame] | ->].
    + destruct (IH st1 w _ E1) as (st' & w' & Hrun & E' & D' & Hsync).
      exists st', w'. repeat split; auto.
      intros H. apply Hsync. unfold in_sync in *. now rewrite Esame.
    + destruct (IH st1 (App.persist st1 w) _ E1) as (st' & w' & Hrun & E' & D' & Hsync).
      exists st', w'. repeat split; auto.
      intros _. apply Hsync. apply persist_calls.
Qed.

Lemma mount_encode w l :
  fst (App.initial_todos w) = Ok (encode_todos l) ->
  Session.mount w
  = (Ok {| App.todos := encode_todos l; App.inputValue := EmptyString |},
     App.persist {| App.todos := encode_todos l; App.inputValue := EmptyString |}
                 (snd (App.initial_todos w))).
Proof.
  intros H. unfold Session.mount.
  destruct (App.initial_todos w) as [r w1]. cbn [fst snd] in *. subst r.
  cbn [bind]. now apply commit_encode with l.
Qed.

Lemma visit_encode w l evs :
  fst (App.initial_todos w) = Ok (encode_todos l) ->
  exists st' w',
    Session.visit w evs = (Ok st', w') /\
    App.todos st' = encode_todos (fst (Session.typed_run evs (l, EmptyString))) /\
    App.inputValue st' = snd (Session.typed_run evs (l, EmptyString)) /\
    in_sync st' w'.
Proof.
  intros H. unfold Session.visit. rewrite (mount_encode w l H).
  destruct (run_encode evs
              {| App.todos := encode_todos l; App.inputValue := EmptyString |}
              (App.persist {| App.todos := encode_todos l; App.inputValue := EmptyString |}
                           (snd (App.initial_todos w)))
              l eq_refl) as (st' & w' & Hrun & E' & D' & Hsync).
  exists st', w'. repeat split; auto. apply Hsync. apply persist_calls.
Qed.

(** A slot that holds the text of a well-typed list gives that list back to
    the initialiser. *)
Lemma in_sync_initial st w l :
  App.todos st = encode_todos l -> in_sync st w ->
  fst (App.initial_todos w) = Ok (encode_todos l).
Proof.
  unfold in_sync. intros E H. rewrite E in H.
  rewrite (initial_todos_present w _ H (stringify_todos_nonempty l)).
  apply parse_stringify_todos.
Qed.

End Visits.

Section Storage.

Implicit Types (st : App.state) (w : world) (evs : list ui_event).

Lemma commit_ok r w st' w' :
  Session.commit r w = (Ok st', w') -> w' = App.persist st' w.
Proof.
  unfold Session.commit. destruct r as [st| |]; try discriminate.
  destruct (Session.render st); try discriminate. now intros [= <- <-].
Qed.

Lemma step_ok ev st w st' w' :
  Session.step ev st w = (Ok st', w') ->
  w' = w /\ App.todos st' = App.todos st \/ w' = App.persist st' w.
Proof.
  destruct ev as [data| |k|k]; cbn [Session.step].
  - intros [= <- <-]. now left.
  - intros H. right. now apply commit_ok in H.
  - unfold Session.on_row. destruct (Session.render st); try discriminate.
    destruct (nth_error a k).
    + intros H. right. now apply commit_ok in H.
    + intros [= <- <-]. now left.
  - unfold Session.on_row. destruct (Session.render st); try discriminate.
    destruct (nth_error a k).
    + intros H. right. now apply commit_ok in H.
    + intros [= <- <-]. now left.
Qed.

Lemma run_sync evs : forall st w st' w',
  in_sync st w -> Session.run evs st w = (Ok st', w') -> in_sync st' w'.
Proof.
  induction evs as [|ev evs IH]; intros st w st' w' Hsync; cbn [Session.run].
  - now intros [= <- <-].
  - destruct (Session.step ev st w) as [[st1| |] w1] eqn:Hstep; try discriminate.
    apply IH. destruct (step_ok ev st w st1 w1 Hstep) as [[-> E] | ->].
    + unfold in_sync in *. now rewrite E.
    + apply persist_calls.
Qed.

(** Every call a commit makes is a write of the slot; a commit that fails
    makes none. *)
Lemma commit_calls r w :
  exists ws, calls (snd (Session.commit r w)) = calls w ++ ws /\
             forallb is_write ws = true /\
             ((forall st', fst (Session.commit r w) <> Ok st') ->
              snd (Session.commit r w) = w).
Proof.
  unfold Session.commit. destruct r as [st| |].
  - destruct (Session.render st).
    + exists [SetItem "todos" (JSON.stringify (App.todos st))].
      repeat split. intros H. now destruct (H st).
    + exists []. cbn. now rewrite app_nil_r.
    + exists []. cbn. now rewrite app_nil_r.
  - exists []. cbn. now rewrite app_nil_r.
  - exists []. cbn. now rewrite app_nil_r.
Qed.

Lemma step_calls ev st w :
  exists ws, calls (snd (Session.step ev st w)) = calls w ++ ws /\
             forallb is_write ws = true.
Proof.
  destruct ev as [data| |k|k]; cbn [Session.step].
  - exists []. cbn. now rewrite app_nil_r.
  - destruct (commit_calls (App.onClick_add st) w) as (ws & H & Hw & _). eauto.
  - unfold Session.on_row. destruct (Session.render st);
      try (exists []; cbn; now rewrite app_nil_r).
    destruct (nth_error a k); [|exists []; cbn; now rewrite app_nil_r].
    destruct (commit_calls (App.onChange_checkbox (key r) st) w) as (ws & H & Hw & _). eauto.
  - unfold Session.on_row. destruct (Session.render st);
      try (exists []; cbn; now rewrite app_nil_r).
    destruct (nth_error a k); [|exists []; cbn; now rewrite app_nil_r].
    destruct (commit_calls (App.onClick_delete (key r) st) w) as (ws & H & Hw & _). eauto.
Qed.

Lemma run_calls evs : forall st w,
  exists ws, calls (snd (Session.run evs st w)) = calls w ++ ws /\
             forallb is_write ws = true.
Proof.
  induction evs as [|ev evs IH]; intros st w; cbn [Session.run].
  - exists []. cbn. now rewrite app_nil_r.
  - destruct (step_calls ev st w) as (ws1 & H1 & Hw1).
    destruct (Session.step ev st w) as [[st1| |] w1]; cbn [snd] in *; eauto.
    destruct (IH st1 w1) as (ws2 & H2 & Hw2).
    exists (ws1 ++ ws2). rewrite H2, H1, app_assoc. split; [reflexivity|].
    now rewrite forallb_app, Hw1, Hw2.
Qed.

Lemma mount_calls w :
  exists ws, calls (snd (Session.mount w)) = calls w ++ GetItem "todos" :: ws /\
             forallb is_write ws = true /\
             ((forall st', fst (Session.mount w) <> Ok st') ->
              ws = [] /\ localStorage (snd (Session.mount w)) = localStorage w).
Proof.
  unfold Session.mount. destruct (initial_todos_calls w) as [Hcalls Hstore].
  destruct (App.initial_todos w) as [r w1]. cbn [snd] in Hcalls, Hstore.
  destruct (commit_calls
              (let! v := r in Ok {| App.todos := v; App.inputValue := EmptyString |}) w1)
    as (ws & H & Hw & Hfail).
  exists ws. rewrite H, Hcalls, <- app_assoc. repeat split; auto.
  - specialize (Hfail H0). rewrite Hfail in H.
    apply (f_equal (@length storage_call)) in H. rewrite length_app in H.
    destruct ws; [reflexivity | cbn in H; lia].
  - now rewrite (Hfail H0).
Qed.

Lemma visit_in_sync w evs st w' :
  Session.visit w evs = (Ok st, w') -> in_sync st w'.
Proof.
  unfold Session.visit.
  destruct (Session.mount w) as [[st0| |] w0] eqn:Hmount; try discriminate.
  apply run_sync. unfold Session.mount in Hmount.
  destruct (App.initial_todos w) as [r w1].
  apply commit_ok in Hmount as ->. apply persist_calls.
Qed.

End Storage.

(** ** When the storage may refuse a write *)

Section Refusals.

Variable accepts : Page.policy.

Implicit Types (st : App.state) (w : world) (evs : list ui_event).

Lemma distinct_NoDup (keys : list Z) :
  Session.distinct keys = true <-> List.NoDup keys.
Proof.
  induction keys as [|k rest IH]; cbn [Session.distinct].
  - split; [constructor | reflexivity].
  - rewrite andb_true_iff, negb_true_iff, IH. split.
    + intros [Hk Hrest]. constructor; [|exact Hrest].
      intros Hin. apply not_true_iff_false in Hk. apply Hk.
      apply existsb_exists. exists k. split; [exact Hin | apply Z.eqb_refl].
    + intros H. inversion H as [|k' rest' Hnotin Hrest]; subst. split; [|exact Hrest].
      apply not_true_iff_false. intros Hex.
      apply existsb_exists in Hex as (k' & Hin & E). apply Z.eqb_eq in E. now subst.
Qed.

Lemma initial_todos_store w1 w2 :
  localStorage w1 = localStorage w2 ->
  fst (App.initial_todos w1) = fst (App.initial_todos w2).
Proof.
  unfold App.initial_todos, getItem. intros ->.
  destruct (localStorage w2 !! "todos") as [[|c data]|]; reflexivity.
Qed.

Lemma effect_agrees st w :
  fst (Page.effect accepts st w) = Page.WriteRefused /\ Page.may_refuse accepts \/
  Page.effect accepts st w = (Page.Completed st, App.persist st w).
Proof.
  unfold Page.effect.
  destruct (accepts (localStorage w) "todos" (JSON.stringify (App.todos st))) eqn:E.
  - now right.
  - left. split; [reflexivity|]. now exists (localStorage w), (JSON.stringify (App.todos st)).
Qed.

Lemma agrees_failed (o : Page.outcome) (r : result App.state) w1 w2 :
  o = Page.lift r -> (forall st, r <> Ok st) -> Page.agrees (o, w1) (r, w2).
Proof.
  intros -> H. split; [reflexivity|]. intros st E. now destruct (H st).
Qed.

Lemma commit_agrees r w :
  fst (Page.commit accepts r w) = Page.WriteRefused /\ Page.may_refuse accepts \/
  Page.agrees (Page.commit accepts r w) (Session.commit r w).
Proof.
  unfold Page.commit, Session.commit. destruct r as [st| |].
  - destruct (Session.render st).
    + destruct (effect_agrees st w) as [H| ->]; [now left|].
      right. now split.
    + right. now apply agrees_failed.
    + right. now apply agrees_failed.
  - right. now apply agrees_failed.
  - right. now apply agrees_failed.
Qed.

Lemma on_row_agrees k handler st w :
  fst (Page.on_row accepts k handler st w) = Page.WriteRefused /\ Page.may_refuse accepts \/
  Page.agrees (Page.on_row accepts k handler st w) (Session.on_row k handler st w).
Proof.
  unfold Page.on_row, Session.on_row. destruct (Session.render st) as [rows| |].
  - destruct (nth_error rows k) as [r|]; [apply commit_agrees|].
    right. now split.
  - right. now apply agrees_failed.
  - right. now apply agrees_failed.
Qed.

Lemma step_agrees ev st w :
  fst (Page.step accepts ev st w) = Page.WriteRefused /\ Page.may_refuse accepts \/
  Page.agrees (Page.step accepts ev st w) (Session.step ev st w).
Proof.
  destruct ev as [data| |k|k]; cbn [Page.step Session.step].
  - right. now split.
  - apply commit_agrees.
  - apply on_row_agrees.
  - apply on_row_agrees.
Qed.

Lemma run_agrees evs : forall st w,
  fst (Page.run accepts evs st w) = Page.WriteRefused /\ Page.may_refuse accepts \/
  Page.agrees (Page.run accepts evs st w) (Session.run evs st w).
Proof.
  induction evs as [|ev evs IH]; intros st w; cbn [Page.run Session.run].
  - right. now split.
  - destruct (step_agrees ev st w) as [[H R]|[H1 H2]].
    + left. destruct (Page.step accepts ev st w) as [[st1|e| |] w1];
        cbn [fst] in H; try discriminate. now split.
    + destruct (Session.step ev st w) as [[st1|e|] w1];
        destruct (Page.step accepts ev st w) as [o w1'];
        cbn [fst snd Page.lift] in H1, H2; subst o.
      * rewrite (H2 st1 eq_refl). apply IH.
      * right. now apply agrees_failed.
      * right. now apply agrees_failed.
Qed.

Lemma mount_agrees w :
  fst (Page.mount accepts w) = Page.WriteRefused /\ Page.may_refuse accepts \/
  Page.agrees (Page.mount accepts w) (Session.mount w).
Proof.
  unfold Page.mount, Page.first_render, Session.mount.
  destruct (initial_todos_calls w) as [_ Hstore].
  pose proof (initial_todos_store _ _ Hstore) as Hagain.
  destruct (App.initial_todos w) as [r w1]. cbn [fst snd] in Hagain.
  destruct (App.initial_todos w1) as [r2 w2]. cbn [fst] in Hagain. subst r2.
  destruct r as [v|e|]; cbn [bind Session.commit].
  - destruct (Session.render {| App.todos := v; App.inputValue := EmptyString |}) as [rows|e|];
      cbn [bind].
    + destruct (effect_agrees {| App.todos := v; App.inputValue := EmptyString |} w1)
        as [H| ->]; [now left|].
      right. now split.
    + right. now apply agrees_failed.
    + right. now apply agrees_failed.
  - right. now apply agrees_failed.
  - right. now apply agrees_failed.
Qed.

Lemma visit_agrees w evs :
  fst (Page.visit accepts w evs) = Page.WriteRefused /\ Page.may_refuse accepts \/
  Page.agrees (Page.visit accepts w evs) (Session.visit w evs).
Proof.
  unfold Page.visit, Session.visit.
  destruct (mount_agrees w) as [[H R]|[H1 H2]].
  - left. destruct (Page.mount accepts w) as [[st1|e| |] w1];
      cbn [fst] in H; try discriminate. now split.
  - destruct (Session.mount w) as [[st1|e|] w1];
      destruct (Page.mount accepts w) as [o w1'];
      cbn [fst snd Page.lift] in H1, H2; subst o.
    + rewrite (H2 st1 eq_refl). apply run_agrees.
    + right. now apply agrees_failed.
    + right. now apply agrees_failed.
Qed.

(** A visit that completes when no write is refused either completes in
    the same way or stops at a refused write. *)
Lemma visit_outcome w evs st w' :
  Session.visit w evs = (Ok st, w') ->
  fst (Page.visit accepts w evs) = Page.WriteRefused /\ Page.may_refuse accepts \/
  Page.visit accepts w evs = (Page.Completed st, w').
Proof.
  intros Hq. destruct (visit_agrees w evs) as [H|[H1 H2]]; [now left|].
  right. rewrite Hq in H1, H2. cbn [fst snd Page.lift] in H1, H2.
  specialize (H2 st eq_refl).
  destruct (Page.visit accepts w evs) as [o w1]. cbn [fst snd] in *. now subst.
Qed.

Lemma visit_completed w evs st w' :
  Page.visit accepts w evs = (Page.Completed st, w') ->
  Session.visit w evs = (Ok st, w').
Proof.
  intros Hp. destruct (visit_agrees w evs) as [[H _]|[H1 H2]].
  - rewrite Hp in H. discriminate.
  - rewrite Hp in H1, H2. cbn [fst snd] in H1, H2.
    destruct (Session.visit w evs) as [[st1|e|] w1]; cbn [fst snd Page.lift] in *;
      try discriminate.
    injection H1 as ->. now rewrite (H2 st1 eq_refl).
Qed.

Lemma never_refused :
  (forall store data, accepts store "todos" data = true) -> ~ Page.may_refuse accepts.
Proof. intros H (store & data & F). rewrite H in F. discriminate. Qed.

End Refusals.

(** X11.  When the initialiser finds a well-typed list in the slot, or no
    list, and the keys of the rows stay pairwise distinct, a visit throws
    nothing but what a refused write throws, whatever is typed and clicked:
    it stops at a write the storage refuses or ends in the state the typed
    transitions compute, and it ends there when no write is refused. *)
Theorem visit_ends_in_the_typed_state (accepts : Page.policy) (w : world)
    (l : list Todo) (evs : list ui_event) :
  fst (App.initial_todos w) = Ok (encode_todos l) ->
  Session.keys_stay_distinct evs (l, EmptyString) = true ->
  (fst (Page.visit accepts w evs) = Page.WriteRefused \/
   fst (Page.visit accepts w evs)
   = Page.Completed
       {| App.todos := encode_todos (fst (Session.typed_run evs (l, EmptyString)));
          App.inputValue := snd (Session.typed_run evs (l, EmptyString)) |}) /\
  ((forall store data, accepts store "todos" data = true) ->
   fst (Page.visit accepts w evs)
   = Page.Completed
       {| App.todos := encode_todos (fst (Session.typed_run evs (l, EmptyString)));
          App.inputValue := snd (Session.typed_run evs (l, EmptyString)) |}).
Proof.
  intros H _. destruct (visit_encode w l evs H) as (st' & w' & Hvisit & E & D & _).
  rewrite <- E, <- D, state_eta.
  destruct (visit_outcome accepts w evs st' w' Hvisit) as [[R F]| ->].
  - split; [now left|]. intros A. now destruct (never_refused accepts A).
  - split; [now right | reflexivity].
Qed.

Lemma visit_ends_in_the_typed_state_witness :
  fst (Page.visit (fun _ _ _ => true) {| localStorage := ∅; calls := [] |}
         [Typing "a"; ClickAdd; ClickCheckbox 0; Typing "b"; ClickAdd; ClickDelete 1;
          Typing "c"])
  = Page.Completed {| App.todos := encode_todos [mkTodo 1 "a" true]; App.inputValue := "c" |} /\
  fst (Page.visit (fun _ _ _ => true)
         (slot_with (sq "[ {'id': 7, 'text': 'a', 'done': false} ]"))
         [ClickCheckbox 0; ClickAdd])
  = Page.Completed {| App.todos := encode_todos [mkTodo 7 "a" true; mkTodo 2 EmptyString false];
                      App.inputValue := EmptyString |}.
Proof.
  split.
  - apply (visit_ends_in_the_typed_state (fun _ _ _ => true)
             {| localStorage := ∅; calls := [] |} []
             [Typing "a"; ClickAdd; ClickCheckbox 0; Typing "b"; ClickAdd; ClickDelete 1;
              Typing "c"]);
      reflexivity.
  - apply (visit_ends_in_the_typed_state (fun _ _ _ => true)
             (slot_with (sq "[ {'id': 7, 'text': 'a', 'done': false} ]"))
             [mkTodo 7 "a" false] [ClickCheckbox 0; ClickAdd]);
      reflexivity.
Defined.

(** X12.  Whenever a visit has thrown nothing, the slot holds the text of
    the list on the page. *)
Theorem slot_follows_the_list (w : world) (evs : list ui_event)
    (st : App.state) (w' : world) :
  Session.visit w evs = (Ok st, w') -> in_sync st w'.
Proof.
  unfold Session.visit.
  destruct (Session.mount w) as [[st0| |] w0] eqn:Hmount; try discriminate.
  apply run_sync. unfold Session.mount in Hmount.
  destruct (App.initial_todos w) as [r w1].
  apply commit_ok in Hmount as ->. apply persist_calls.
Qed.

Lemma slot_follows_the_list_witness :
  localStorage (snd (Session.visit {| localStorage := ∅; calls := [] |}
                       [Typing "a"; ClickAdd; ClickCheckbox 0; Typing "b"]))
    !! "todos"
  = Some (JSON.stringify (encode_todos [mkTodo 1 "a" true])).
Proof.
  apply (slot_follows_the_list {| localStorage := ∅; calls := [] |}
           [Typing "a"; ClickAdd; ClickCheckbox 0; Typing "b"]
           {| App.todos := encode_todos [mkTodo 1 "a" true]; App.inputValue := "b" |}).
  apply surjective_pairing.
Defined.

(** X13.  A visit whose mount completes reads the storage once, first and
    for the key todos; every other call it makes is a write of that key,
    whether or not an event throws later. *)
Theorem visit_reads_once (w : world) (evs : list ui_event)
    (st0 : App.state) (w0 : world) :
  Session.mount w = (Ok st0, w0) ->
  exists ws,
    calls (snd (Session.visit w evs)) = calls w ++ GetItem "todos" :: ws /\
    forallb is_write ws = true.
Proof.
  intros Hmount. unfold Session.visit.
  destruct (mount_calls w) as (ws0 & H0 & Hw0 & _).
  rewrite Hmount in H0 |- *. cbn [snd] in H0.
  destruct (run_calls evs st0 w0) as (ws & H & Hw).
  exists (ws0 ++ ws). rewrite H, H0, <- app_assoc. split; [reflexivity|].
  now rewrite forallb_app, Hw0, Hw.
Qed.

Lemma visit_reads_once_witness :
  exists ws,
    calls (snd (Session.visit (slot_with "[]") [Typing "a"; ClickAdd; ClickDelete 0]))
    = [] ++ GetItem "todos" :: ws /\
    forallb is_write ws = true.
Proof.
  apply (visit_reads_once (slot_with "[]") [Typing "a"; ClickAdd; ClickDelete 0]
           {| App.todos := VArr []; App.inputValue := EmptyString |}
           (snd (Session.mount (slot_with "[]")))).
  apply surjective_pairing.
Defined.

(** X14.  When a visit has completed with a well-typed list on the page,
    the slot gives that list back to the initialiser of the next mount:
    mounting again shows the same list, with an empty input, unless the
    storage refuses the write of that mount. *)
Theorem reload_restores_the_list (accepts accepts' : Page.policy) (w : world)
    (evs : list ui_event) (st : App.state) (w' : world) (l : list Todo) :
  Page.visit accepts w evs = (Page.Completed st, w') ->
  App.todos st = encode_todos l ->
  fst (App.initial_todos w') = Ok (encode_todos l) /\
  (fst (Page.visit accepts' w' []) = Page.WriteRefused \/
   fst (Page.visit accepts' w' [])
   = Page.Completed {| App.todos := encode_todos l; App.inputValue := EmptyString |}).
Proof.
  intros Hvisit E.
  apply visit_completed in Hvisit. apply visit_in_sync in Hvisit.
  pose proof (in_sync_initial st w' l E Hvisit) as Hinit.
  split; [exact Hinit|].
  destruct (visit_encode w' l [] Hinit) as (st2 & w2 & Hq & E2 & D2 & _).
  cbn in E2, D2.
  destruct (visit_outcome accepts' w' [] st2 w2 Hq) as [[R _]| ->]; [now left|].
  right. cbn [fst]. now rewrite <- E2, <- D2, state_eta.
Qed.

Lemma reload_restores_the_list_witness :
  fst (App.initial_todos
         (snd (Page.visit (fun _ _ _ => true) {| localStorage := ∅; calls := [] |}
                 [Typing "a"; ClickAdd; ClickCheckbox 0; Typing "b"])))
  = Ok (encode_todos [mkTodo 1 "a" true]).
Proof.
  apply (reload_restores_the_list (fun _ _ _ => true) (fun _ _ _ => true)
           {| localStorage := ∅; calls := [] |}
           [Typing "a"; ClickAdd; ClickCheckbox 0; Typing "b"]
           {| App.todos := encode_todos [mkTodo 1 "a" true]; App.inputValue := "b" |});
    [apply surjective_pairing | reflexivity].
Defined.



(** X16.  A slot whose text is not JSON makes the visit throw the
    SyntaxError of JSON.parse before anything is drawn; the visit writes
    nothing and the storage is left as it was, so every later visit throws
    again. *)
Theorem corrupt_slot_stays_corrupt (w : world) (data : string) (e : exn)
    (evs evs' : list ui_event) :
  localStorage w !! "todos" = Some data -> data <> EmptyString ->
  JSON.parse data = Throw e ->
  fst (Session.visit w evs) = Throw e /\
  localStorage (snd (Session.visit w evs)) = localStorage w /\
  (forall k d, In (SetItem k d) (calls (snd (Session.visit w evs))) ->
               In (SetItem k d) (calls w)) /\
  fst (Session.visit (snd (Session.visit w evs)) evs') = Throw e.
Proof.
  intros Hslot Hne Hparse.
  assert (Hvisit : forall w0 evs0, localStorage w0 !! "todos" = Some data ->
            Session.visit w0 evs0 = (Throw e, snd (App.initial_todos w0))).
  { intros w0 evs0 H0. unfold Session.visit, Session.mount.
    pose proof (initial_todos_present w0 data H0 Hne) as Hinit.
    destruct (App.initial_todos w0) as [r w1]. cbn [fst snd] in *.
    rewrite Hinit, Hparse. reflexivity. }
  rewrite (Hvisit w evs Hslot). cbn [fst snd].
  destruct (initial_todos_calls w) as [Hcalls Hstore].
  split; [reflexivity|]. split; [exact Hstore|]. split.
  - intros k d. rewrite Hcalls, in_app_iff. intros [H|[H|[]]]; [exact H | discriminate H].
  - rewrite Hvisit; [reflexivity|]. now rewrite Hstore.
Qed.

Lemma corrupt_slot_stays_corrupt_witness :
  fst (Session.visit (slot_with "[1,") [ClickAdd]) = Throw SyntaxError /\
  fst (Session.visit (snd (Session.visit (slot_with "[1,") [ClickAdd])) []) = Throw SyntaxError.
Proof.
  destruct (corrupt_slot_stays_corrupt (slot_with "[1,") "[1," SyntaxError [ClickAdd] [])
    as (H1 & _ & _ & H2);
    [apply lookup_singleton_eq | discriminate | reflexivity |].
  split; [exact H1 | exact H2].
Defined.

(** X17.  A slot whose text is JSON but not an array is accepted by the
    initialiser, cast and all, and it is the first render that throws, a
    TypeError; nothing is written. *)
Theorem non_array_slot_throws (w : world) (data : string) (v : value)
    (evs : list ui_event) :
  localStorage w !! "todos" = Some data -> data <> EmptyString ->
  JSON.parse data = Ok v ->
  (forall elems, v <> VArr elems) ->
  fst (App.initial_todos w) = Ok v /\
  Session.render {| App.todos := v; App.inputValue := EmptyString |} = Throw TypeError /\
  fst (Session.visit w evs) = Throw TypeError /\
  localStorage (snd (Session.visit w evs)) = localStorage w /\
  (forall k d, In (SetItem k d) (calls (snd (Session.visit w evs))) ->
               In (SetItem k d) (calls w)).
Proof.
  intros Hslot Hne Hparse Hv.
  destruct (initial_todos_calls w) as [Hcalls Hstore].
  pose proof (initial_todos_present w data Hslot Hne) as Hinit.
  rewrite Hparse in Hinit.
  assert (Hrender : Session.render {| App.todos := v; App.inputValue := EmptyString |}
                    = Throw TypeError).
  { unfold Session.render. cbn [App.todos].
    destruct v as [| | | |elems|]; try reflexivity. now destruct (Hv elems). }
  split; [exact Hinit|]. split; [exact Hrender|].
  unfold Session.visit, Session.mount.
  destruct (App.initial_todos w) as [r w1]. cbn [fst snd] in *. subst r.
  cbn [bind Session.commit]. rewrite Hrender. cbn [fst snd].
  split; [reflexivity|]. split; [exact Hstore|].
  intros k d. rewrite Hcalls, in_app_iff. intros [H|[H|[]]]; [exact H | discriminate H].
Qed.

Lemma non_array_slot_throws_witness :
  fst (Session.visit (slot_with "null") []) = Throw TypeError /\
  fst (Session.visit (slot_with "{}") []) = Throw TypeError.
Proof.
  split.
  - apply (non_array_slot_throws (slot_with "null") "null" VNull []);
      [apply lookup_singleton_eq | discriminate | reflexivity | discriminate].
  - apply (non_array_slot_throws (slot_with "{}") "{}" (VObj []) []);
      [apply lookup_singleton_eq | discriminate | reflexivity | discriminate].
Defined.

Section StructuralTyping.

Implicit Types (st : App.state) (w : world) (evs : list ui_event).

Lemma render_items_typed elems :
  forallb is_todo elems = true ->
  exists rows, App.map_result Session.render_item elems = Ok rows.
Proof.
  induction elems as [|v elems IH]; intros H; cbn [App.map_result].
  - now exists [].
  - cbn [forallb] in H. apply andb_true_iff in H as [Hv Hrest].
    apply is_todo_inv in Hv as (props & n & s & b & -> & Hid & Htext & Hdone).
    destruct (IH Hrest) as (rows & ->).
    cbn [Session.render_item]. rewrite Hid, Htext, Hdone. cbn [bind]. eauto.
Qed.

Lemma commit_typed st w :
  is_todos (App.todos st) = true ->
  Session.commit (Ok st) w = (Ok st, App.persist st w).
Proof.
  intros H. unfold Session.commit, Session.render.
  destruct (App.todos st) as [| | | |elems|]; try discriminate.
  now destruct (render_items_typed elems H) as (rows & ->).
Qed.

Lemma on_row_typed k handler st w :
  is_todos (App.todos st) = true ->
  (forall i, exists st', handler i st = Ok st' /\ is_todos (App.todos st') = true) ->
  exists st' w', Session.on_row k handler st w = (Ok st', w') /\
                 is_todos (App.todos st') = true.
Proof.
  intros H Hhandler. unfold Session.on_row, Session.render.
  destruct (App.todos st) as [| | | |elems|] eqn:E; try discriminate.
  destruct (render_items_typed elems H) as (rows & ->).
  destruct (nth_error rows k) as [r|].
  - destruct (Hhandler (key r)) as (st' & -> & H').
    rewrite (commit_typed st' w H'). eauto.
  - exists st, w. now rewrite E.
Qed.

Lemma step_typed ev st w :
  is_todos (App.todos st) = true ->
  exists st' w', Session.step ev st w = (Ok st', w') /\
                 is_todos (App.todos st') = true.
Proof.
  intros H. destruct ev as [data| |k|k]; cbn [Session.step].
  - eexists _, w. split; [reflexivity | exact H].
  - destruct (onClick_add_typed st H) as (st' & -> & H').
    rewrite (commit_typed st' w H'). eauto.
  - apply on_row_typed; [exact H|]. intros i. now apply onChange_checkbox_typed.
  - apply on_row_typed; [exact H|]. intros i. now apply onClick_delete_typed.
Qed.

Lemma run_typed evs : forall st w,
  is_todos (App.todos st) = true ->
  exists st' w', Session.run evs st w = (Ok st', w') /\
                 is_todos (App.todos st') = true.
Proof.
  induction evs as [|ev evs IH]; intros st w H; cbn [Session.run].
  - eauto.
  - destruct (step_typed ev st w H) as (st1 & w1 & -> & H1). now apply IH.
Qed.

Lemma visit_typed w v evs :
  fst (App.initial_todos w) = Ok v -> is_todos v = true ->
  exists st' w', Session.visit w evs = (Ok st', w') /\
                 is_todos (App.todos st') = true.
Proof.
  intros Hinit Hv. unfold Session.visit, Session.mount.
  destruct (App.initial_todos w) as [r w1]. cbn [fst] in Hinit. subst r.
  cbn [bind]. rewrite commit_typed by exact Hv.
  now apply run_typed.
Qed.

(** The render stops at the first [null]. *)
Lemma render_items_null elems rest :
  forallb is_todo elems = true ->
  App.map_result Session.render_item (elems ++ VNull :: rest) = Throw TypeError.
Proof.
  induction elems as [|v elems IH]; intros H; [reflexivity|].
  cbn [forallb] in H. apply andb_true_iff in H as [Hv Hrest].
  apply is_todo_inv in Hv as (props & n & s & b & -> & Hid & Htext & Hdone).
  cbn [app App.map_result Session.render_item]. rewrite Hid, Htext, Hdone, (IH Hrest).
  reflexivity.
Qed.

End StructuralTyping.

(** X18.  When the initialiser finds in the slot an array of objects that
    each have an integer id, a string text and a boolean done, in any order
    and next to other properties, a visit throws nothing but what a refused
    write throws, whatever is typed and clicked: no TypeError arises, and
    the list on the page stays such an array. *)
Theorem well_typed_slot_stays_well_typed (accepts : Page.policy) (w : world)
    (v : value) (evs : list ui_event) :
  fst (App.initial_todos w) = Ok v -> is_todos v = true ->
  (fst (Page.visit accepts w evs) = Page.WriteRefused \/
   exists st', fst (Page.visit accepts w evs) = Page.Completed st' /\
               is_todos (App.todos st') = true) /\
  ((forall store data, accepts store "todos" data = true) ->
   exists st', fst (Page.visit accepts w evs) = Page.Completed st' /\
               is_todos (App.todos st') = true).
Proof.
  intros Hinit Hv.
  destruct (visit_typed w v evs Hinit Hv) as (st' & w' & Hvisit & H').
  destruct (visit_outcome accepts w evs st' w' Hvisit) as [[R F]| ->].
  - split; [now left|]. intros A. now destruct (never_refused accepts A).
  - split; [right|intros _]; exists st'; now split.
Qed.

Lemma well_typed_slot_stays_well_typed_witness :
  exists st',
    fst (Page.visit (fun _ _ _ => true)
           (slot_with (sq "[{'text':'x','note':'n','done':false,'id':5}]"))
           [ClickCheckbox 0; Typing "y"; ClickAdd])
    = Page.Completed st' /\ is_todos (App.todos st') = true.
Proof.
  apply (well_typed_slot_stays_well_typed (fun _ _ _ => true)
           (slot_with (sq "[{'text':'x','note':'n','done':false,'id':5}]"))
           (VArr [VObj [("text", VStr "x"); ("note", VStr "n");
                        ("done", VBool false); ("id", VNum 5)]]));
    reflexivity.
Defined.

(** X19.  A slot whose text denotes an array with a [null] after items that
    are well typed makes the first render throw a TypeError; the storage
    is left as it was. *)
Theorem null_item_throws (w : world) (data : string) (elems rest : list value)
    (evs : list ui_event) :
  localStorage w !! "todos" = Some data -> data <> EmptyString ->
  JSON.parse data = Ok (VArr (elems ++ VNull :: rest)) ->
  forallb is_todo elems = true ->
  fst (Session.visit w evs) = Throw TypeError /\
  localStorage (snd (Session.visit w evs)) = localStorage w.
Proof.
  intros Hslot Hne Hparse Helems.
  destruct (initial_todos_calls w) as [_ Hstore].
  pose proof (initial_todos_present w data Hslot Hne) as Hinit.
  unfold Session.visit, Session.mount.
  destruct (App.initial_todos w) as [r w1]. cbn [fst snd] in *.
  rewrite Hinit, Hparse. cbn [bind Session.commit Session.render App.todos].
  rewrite (render_items_null elems rest Helems). now split.
Qed.

Lemma null_item_throws_witness :
  fst (Session.visit (slot_with (sq "[{'id':1,'text':'a','done':true},null]")) [ClickAdd])
  = Throw TypeError.
Proof.
  apply (null_item_throws
           (slot_with (sq "[{'id':1,'text':'a','done':true},null]"))
           (sq "[{'id':1,'text':'a','done':true},null]")
           [encode (mkTodo 1 "a" true)] []);
    [apply lookup_singleton_eq | discriminate | reflexivity | reflexivity].
Defined.

(** * The counter *)

Section Counter.

Import ReducerApp.

Implicit Types (actions : list string) (state : Z).

Lemma fold_reducer_without_reset actions : forall state,
  ~ In "reset" actions ->
  fold_left counterReducer actions state
  = state + Z.of_nat (occurrences "inc" actions) - Z.of_nat (occurrences "dec" actions).
Proof.
  unfold occurrences.
  induction actions as [|a actions IH]; intros state Hno; [cbn; lia|].
  cbn [fold_left List.filter]. rewrite IH by (intros H; apply Hno; now right).
  assert (Ha : a <> "reset") by (intros ->; apply Hno; now left).
  unfold counterReducer.
  destruct (String.eqb_spec a "inc") as [->|Hinc]; [cbn; lia|].
  destruct (String.eqb_spec a "dec") as [->|Hdec]; [cbn; lia|].
  destruct (String.eqb_spec a "reset") as [->|_]; [congruence|].
  rewrite (proj2 (String.eqb_neq "inc" a)), (proj2 (String.eqb_neq "dec" a)) by congruence.
  lia.
Qed.

Lemma fold_reducer_bound actions : forall state,
  Z.abs (fold_left counterReducer actions state)
  <= Z.abs state + Z.of_nat (length actions).
Proof.
  induction actions as [|a actions IH]; intros state; [cbn; lia|].
  cbn [fold_left length]. specialize (IH (counterReducer state a)).
  assert (Z.abs (counterReducer state a) <= Z.abs state + 1); [|lia].
  unfold counterReducer.
  destruct (String.eqb a "inc"); [lia|].
  destruct (String.eqb a "dec"); [lia|].
  destruct (String.eqb a "reset"); lia.
Qed.

End Counter.

(** X20.  As long as fewer than 2^53 actions are dispatched, every count on
    the way stays below 2^53 in absolute value, where the numbers of the
    code are exact; the counter forgets everything before the last reset,
    and since then it is the number of increments minus the number of
    decrements; an action of any other type changes nothing. *)
Theorem counter_counts (before since : list string) :
  Z.of_nat (length (before ++ "reset" :: since)) < 2 ^ 53 ->
  ~ In "reset" since ->
  (forall n, Z.abs (ReducerApp.count_after (firstn n (before ++ "reset" :: since))) < 2 ^ 53) /\
  ReducerApp.count_after (before ++ "reset" :: since) = ReducerApp.count_after since /\
  ReducerApp.count_after since
  = Z.of_nat (ReducerApp.occurrences "inc" since)
    - Z.of_nat (ReducerApp.occurrences "dec" since).
Proof.
  change (2 ^ 53) with 9007199254740992.
  intros Hlen Hno. unfold ReducerApp.count_after. split; [|split].
  - intros n.
    pose proof (fold_reducer_bound (firstn n (before ++ "reset" :: since)) 0) as Hb.
    rewrite length_firstn in Hb. lia.
  - rewrite fold_left_app. cbn [fold_left].
    assert (R : forall state, ReducerApp.counterReducer state "reset" = 0)
      by reflexivity.
    now rewrite R.
  - rewrite fold_reducer_without_reset by exact Hno. lia.
Qed.

Lemma counter_counts_witness :
  ReducerApp.count_after ["inc"; "dec"; "dec"; "reset"; "inc"; "noop"; "inc"; "dec"] = 1.
Proof.
  destruct (counter_counts ["inc"; "dec"; "dec"] ["inc"; "noop"; "inc"; "dec"])
    as (_ & Hforget & Hcount).
  - reflexivity.
  - cbn. intuition discriminate.
  - cbn [app] in Hforget. rewrite Hforget, Hcount. reflexivity.
Defined.

(** X21.  After n dispatches the counter lies between -n and n. *)
Theorem counter_is_bounded (actions : list string) :
  Z.abs (ReducerApp.count_after actions) <= Z.of_nat (length actions).
Proof.
  unfold ReducerApp.count_after.
  pose proof (fold_reducer_bound actions 0). lia.
Qed.
